(** * cincan-command: the file-provenance inspector and the command runner

    A shallow embedding of [cincan/command_inspector.py] (the dependency
    tree nodes and their rendering, [CommandInspector.fanin], [fanout],
    [hash_of]) and of the part of [cincan/frontend.py] that turns one
    container execution into a command log entry
    ([ToolImage.__container_exec]).

    Conventions of the embedding:
    - a [pathlib.Path] is represented by its [as_posix()] string;
    - a Python [str] is a [string], one [ascii] per character;
    - [bytes] are [list byte];
    - the [already_covered] argument of [fanin]/[fanout] is a reference to
      a Python [set] object: the model keeps a heap of set objects and
      passes locations, so that aliasing between the caller and the
      recursive calls is the one of the source;
    - the file system and [hashlib.md5] are the components of a [World];
      every call of [hash_of] is recorded in a trace. *)

From Stdlib Require Import String Ascii List ZArith Lia Bool.
From stdpp Require Import base gmap sets list strings sorting.

Local Open Scope string_scope.
Local Open Scope list_scope.

(** ** Data model *)

Definition Path := string.
Definition bytes := list Byte.byte.

(** Python truthiness of a [str]: the empty string is falsy. *)
Definition str_truthy (s : string) : bool :=
  match s with
  | EmptyString => false
  | String _ _ => true
  end.

(** Modelled from the spec: the declaration of [FileLog] lives in
    [cincan/command_log.py], which is not part of the sources at hand.  A
    FileRecord is a path and a hex digest; the inspector reads the fields
    [path] and [md5], and the runner builds records with
    [FileLog(path, hexdigest)].  The class defines neither [__bool__] nor
    [__len__], so every record is truthy. *)
Record FileLog := mkFileLog {
  path : Path;
  md5 : string
}.

(** Modelled from the spec: the declaration of [CommandLog] lives in
    [cincan/command_log.py].  An entry has the argument vector, the exit
    code and the two collections of file records; [stdin], [stdout] and
    [stderr] are the attributes [__container_exec] assigns when the
    output is buffered. *)
Record CommandLog := mkCommandLog {
  command : list string;
  exit_code : Z;
  stdin : bytes;
  stdout : bytes;
  stderr : bytes;
  in_files : list FileLog;
  out_files : list FileLog
}.

(** Modelled from the spec: [CommandLog(command)] is an entry with the
    given argument vector and no file records.  The exit code is assigned
    by [__container_exec] before anything reads it.  What the constructor
    leaves in [stdin], [stdout] and [stderr] is stated neither by the
    specification nor by the sources at hand; the model puts the empty
    byte string there as a placeholder, and the properties of the streams
    below are stated for buffered output only, where [__container_exec]
    assigns all three. *)
Definition new_CommandLog (cmd : list string) : CommandLog :=
  mkCommandLog cmd 0 [] [] [] [] [].

(** Modelled from the spec: [CommandLogIndex] and its [list_entries] live
    in [cincan/command_log.py].  The store is the insertion-ordered
    sequence of its entries; [list_entries(reverse)] yields them in
    insertion order or, with [reverse=True], most recent first. *)
Definition CommandLogIndex := list CommandLog.

Definition list_entries (log : CommandLogIndex) (reverse : bool) : list CommandLog :=
  if reverse then rev log else log.

(** The two node classes of the dependency tree. *)
Inductive FileDependency : Type :=
| mkFileDependency (file : Path) (digest : string) (out : bool)
                   (next : list CommandDependency)
with CommandDependency : Type :=
| mkCommandDependency (cmd : CommandLog) (out : bool)
                      (next : list FileDependency).

Definition fd_file (d : FileDependency) : Path :=
  match d with mkFileDependency f _ _ _ => f end.
Definition fd_digest (d : FileDependency) : string :=
  match d with mkFileDependency _ g _ _ => g end.
Definition fd_out (d : FileDependency) : bool :=
  match d with mkFileDependency _ _ o _ => o end.
Definition fd_next (d : FileDependency) : list CommandDependency :=
  match d with mkFileDependency _ _ _ n => n end.

Definition cd_command (c : CommandDependency) : CommandLog :=
  match c with mkCommandDependency k _ _ => k end.
Definition cd_out (c : CommandDependency) : bool :=
  match c with mkCommandDependency _ o _ => o end.
Definition cd_next (c : CommandDependency) : list FileDependency :=
  match c with mkCommandDependency _ _ n => n end.

(** ** The outside world *)

(** What the inspector asks of its environment: the file system
    ([Path.is_file], [Path.open], [Path.resolve]), [PurePath.relative_to]
    and [hashlib.md5().hexdigest()].  [read_bytes p = None] when [p] is not
    a regular file. *)
Record World := mkWorld {
  read_bytes : Path -> option bytes;
  hexdigest : bytes -> string;
  resolve : Path -> Path;
  relative_to : Path -> Path -> option Path
}.

Record CommandInspector := mkCommandInspector {
  log : CommandLogIndex;
  work_dir : Path
}.

(** ** [CommandInspector.hash_of] *)

(** The read loop: [chunk = f.read(2048); while chunk: md5sum.update(chunk);
    chunk = f.read(2048)].  The hash object is represented by the bytes it
    has been fed; [rest] is what the file still holds. *)
Fixpoint read_loop (fuel : nat) (md5sum rest : bytes) : bytes :=
  match fuel with
  | 0 => md5sum
  | S fuel' =>
      match take 2048 rest with
      | [] => md5sum
      | chunk => read_loop fuel' (md5sum ++ chunk) (drop 2048 rest)
      end
  end.

Definition hash_of (w : World) (file : Path) : string :=
  match read_bytes w file with
  | None => ""
  | Some content => hexdigest w (read_loop (S (length content)) [] content)
  end.

(** ** [CommandInspector.__work_path] *)

Definition work_path (w : World) (self : CommandInspector) (p : Path) : Path :=
  if String.prefix "/dev/" p then p
  else match relative_to w p (work_dir self) with
       | Some r => r
       | None => resolve w p
       end.

(** ** Traversal state and its monad *)

(** [sets]: the heap of Python [set] objects, a location is an index.
    [hashed]: the paths given to [hash_of], oldest first. *)
Record State := mkState {
  sets : list (gset string);
  hashed : list Path
}.

(** [None]: the recursion budget of the model is exhausted. *)
Definition M (A : Type) : Type := State -> option (A * State).

Definition ret {A} (a : A) : M A := fun st => Some (a, st).

Definition bind {A B} (m : M A) (k : A -> M B) : M B :=
  fun st => match m st with
            | Some (a, st') => k a st'
            | None => None
            end.

Definition out_of_fuel {A} : M A := fun _ => None.

Notation "'let!' x ':=' m 'in' k" := (bind m (fun x => k))
  (at level 10, x name, m at level 100, k at level 200).
Notation "'do!' m 'in' k" := (bind m (fun _ => k))
  (at level 10, m at level 100, k at level 200).

Fixpoint mapM {A B} (f : A -> M B) (l : list A) : M (list B) :=
  match l with
  | [] => ret []
  | a :: l' => let! b := f a in let! bs := mapM f l' in ret (b :: bs)
  end.

Definition set_at (st : State) (l : nat) : gset string :=
  default ∅ (sets st !! l).

(** [set([])] *)
Definition new_set : M nat :=
  fun st => Some (length (sets st), mkState (sets st ++ [∅]) (hashed st)).

(** [already_covered or set([])]: [None] and the empty set are falsy. *)
Definition set_or_new (already_covered : option nat) : M nat :=
  match already_covered with
  | None => new_set
  | Some l => fun st =>
      if decide (set_at st l = ∅) then new_set st else Some (l, st)
  end.

(** [key in s] *)
Definition set_contains (l : nat) (key : string) : M bool :=
  fun st => Some (bool_decide (key ∈ set_at st l), st).

(** [s.add(key)] *)
Definition set_add (l : nat) (key : string) : M unit :=
  fun st => Some (tt, mkState (<[l := {[key]} ∪ set_at st l]> (sets st)) (hashed st)).

(** [self.hash_of(file)] as an effect: the call is traced. *)
Definition hash_of_M (w : World) (file : Path) : M string :=
  fun st => Some (hash_of w file, mkState (sets st) (hashed st ++ [file])).

(** [digest or self.hash_of(file)]: [None] and [''] are falsy. *)
Definition digest_or_hash (w : World) (digest : option string) (file : Path) : M string :=
  match digest with
  | Some d => if str_truthy d then ret d else hash_of_M w file
  | None => hash_of_M w file
  end.

(** ** [fanin] and [fanout] *)

(** The files an entry is matched on, and the files the traversal goes on
    with: [fanin] ([out = false]) matches on [out_files] and descends into
    [in_files]; [fanout] ([out = true]) is the mirror. *)
Definition match_files (out : bool) (c : CommandLog) : list FileLog :=
  if out then in_files c else out_files c.
Definition next_files (out : bool) (c : CommandLog) : list FileLog :=
  if out then out_files c else in_files c.

(** [any(filter(lambda f: f.md5 == file_digest, files))] *)
Definition digest_here (file_digest : string) (files : list FileLog) : bool :=
  existsb (fun f => String.eqb (md5 f) file_digest) files.

(** The [for cmd in self.log.list_entries(reverse=True)] loop; [rec] is the
    recursive call on one file record. *)
Fixpoint scan (rec : FileLog -> M FileDependency) (out : bool)
         (file_digest : string) (entries : list CommandLog)
  : M (list CommandDependency) :=
  match entries with
  | [] => ret []
  | c :: rest =>
      if digest_here file_digest (match_files out c) then
        let! cmd_next := mapM rec (next_files out c) in
        let! file_next := scan rec out file_digest rest in
        ret (mkCommandDependency c out cmd_next :: file_next)
      else scan rec out file_digest rest
  end.

Definition file_check (file : Path) (file_digest : string) : string :=
  file +:+ ":" +:+ file_digest.

(** The common body of [fanin] ([out = false]) and [fanout] ([out = true]);
    the two methods differ in the direction flag and in which file list is
    matched and which is descended into. *)
Fixpoint fan (w : World) (self : CommandInspector) (fuel : nat) (out : bool)
         (file : Path) (already_covered : option nat) (digest : option string)
  : M FileDependency :=
  match fuel with
  | 0 => out_of_fuel
  | S fuel' =>
      let! file_digest := digest_or_hash w digest file in
      let file_dep := mkFileDependency (work_path w self file) file_digest out in
      let! covered_set := set_or_new already_covered in
      let! seen := set_contains covered_set (file_check file file_digest) in
      if seen : bool then ret (file_dep [])
      else
        do! set_add covered_set (file_check file file_digest) in
        let! next := scan (fun f => fan w self fuel' out (path f) (Some covered_set) (Some (md5 f)))
                          out file_digest (list_entries (log self) true) in
        ret (file_dep next)
  end.

(** All file records of the store. *)
Definition store_files (log : CommandLogIndex) : list FileLog :=
  flat_map (fun c => in_files c ++ out_files c) log.

(** A recursion budget that is always enough (see [fan_total]): every
    nested call but the first adds a new key of a store record to the
    shared set. *)
Definition budget (self : CommandInspector) : nat :=
  2 + length (store_files (log self)).

Definition fanin (w : World) (self : CommandInspector) (file : Path)
           (already_covered : option nat) (digest : option string)
  : M FileDependency :=
  fan w self (budget self) false file already_covered digest.

Definition fanout (w : World) (self : CommandInspector) (file : Path)
           (already_covered : option nat) (digest : option string)
  : M FileDependency :=
  fan w self (budget self) true file already_covered digest.

(** ** Rendering: [FileDependency.__str__] and [CommandDependency.__str__] *)

(** The newline character and the one-character string ['\n']. *)
Definition nl_char : ascii := ascii_of_nat 10.
Definition nl : string := String nl_char EmptyString.

(** [s.replace(old, new)] for a one-character [old]. *)
Fixpoint replace_char (old : ascii) (new : string) (s : string) : string :=
  match s with
  | EmptyString => EmptyString
  | String c s' =>
      if Ascii.eqb c old then new +:+ replace_char old new s'
      else String c (replace_char old new s')
  end.

(** [str(s).replace('\n', '\n    ')] *)
Definition indent (s : string) : string :=
  replace_char nl_char (nl +:+ "    ") s.

(** [p + p.join(next_strings) if next_strings else ''] *)
Definition attach (p : string) (next_strings : list string) : string :=
  match next_strings with
  | [] => ""
  | _ :: _ => p +:+ String.concat p next_strings
  end.

(** The label of a file node. *)
Definition file_string (file : Path) (digest : string) : string :=
  file +:+ (if str_truthy digest then " " +:+ substring 0 16 digest else "/").

(** The connector of a file node and of a command node. *)
Definition file_glyph (out : bool) : string :=
  if out then nl +:+ "|-- " else nl +:+ "^-- ".
Definition command_glyph (out : bool) : string :=
  if out then nl +:+ "|-->" else nl +:+ "^---".

Section Render.

(** [cincan.commands.quote_args] is not part of the sources at hand; the
    renderer is parametric in it. *)
Variable quote_args : list string -> list string.

Fixpoint FileDependency_str (d : FileDependency) : string :=
  match d with
  | mkFileDependency file digest out next =>
      let next_strings := map (fun s => indent (CommandDependency_str s)) next in
      file_string file digest +:+ attach (file_glyph out) next_strings
  end
with CommandDependency_str (c : CommandDependency) : string :=
  match c with
  | mkCommandDependency cmd out next =>
      let cmd_string := String.concat " " (quote_args (command cmd)) in
      let next_strings := map (fun s => indent (FileDependency_str s)) next in
      cmd_string +:+ attach (command_glyph out) next_strings
  end.

End Render.

(** The first line of a text: everything before the first newline. *)
Fixpoint first_line (s : string) : string :=
  match s with
  | EmptyString => EmptyString
  | String c s' => if Ascii.eqb c nl_char then EmptyString else String c (first_line s')
  end.

(** [c in s] for a character. *)
Fixpoint has_char (c : ascii) (s : string) : bool :=
  match s with
  | EmptyString => false
  | String c' s' => Ascii.eqb c' c || has_char c s'
  end.

(** ** The command runner: [ToolImage.__container_exec] *)

Module Frontend.

(** [ToolStream]: a stream to or from the container.  [md5] is the hash
    object, represented by the bytes it has been fed; [stream] holds what
    has been written to the wrapped host stream. *)
Record ToolStream := mkToolStream {
  data_length : nat;
  md5 : bytes;
  raw : bytes;
  stream : bytes
}.

Definition new_ToolStream : ToolStream := mkToolStream 0 [] [] [].

Definition update (s : ToolStream) (data : bytes) : ToolStream :=
  mkToolStream (data_length s + length data) (md5 s ++ data) (raw s) (stream s).

(** One stream returned by [select]: standard input, with what
    [sys.stdin.buffer.read] then returns, or the container socket, with
    what [__unpack_container_stream] then returns ([(0, b'')] at the end
    of the stream) or the fact that it raised. *)
Inductive Ready :=
| StdinReady (s_data : bytes)
| SocketReady (s_type : Z) (s_data : bytes)
| SocketFailed.

(** One call of [select.select]. *)
Inductive Select :=
| Selected (select_in : list Ready)
| Unsupported.

Inductive Outcome (A : Type) :=
| Done (a : A)
| Raised (what : string)
| Blocked.
Arguments Done {A} a.
Arguments Raised {A} what.
Arguments Blocked {A}.

Record Streams := mkStreams {
  stdin_s : option ToolStream;
  stdout_s : option ToolStream;
  stderr_s : ToolStream;
  stdin_active : bool;      (* sys.stdin in active_streams *)
  c_socket_open : bool;
  sent : bytes              (* written to the container's stdin *)
}.

Record ToolImage := mkToolImage {
  name : string;
  entrypoint : option string;
  image_entrypoint : option (list string);   (* attrs['Config'].get('Entrypoint') *)
  image_cmd : option (list string);          (* attrs['Config'].get('Cmd') *)
  buffer_output : bool
}.

(** [std_s.update(s_data)] followed by the write to [raw] or to the
    host stream. *)
Definition deliver (buffer : bool) (s : ToolStream) (s_data : bytes) : ToolStream :=
  let s' := update s s_data in
  if buffer
  then mkToolStream (data_length s') (md5 s') (raw s' ++ s_data) (stream s')
  else mkToolStream (data_length s') (md5 s') (raw s') (stream s' ++ s_data).

(** The body of [for sel in select_in]. *)
Definition handle (buffer : bool) (sel : Ready) (s : Streams) : Outcome Streams :=
  match sel with
  | StdinReady s_data =>
      if negb (stdin_active s) then Raised "select returned a stream that is not active"
      else match s_data with
           | [] => Done (mkStreams (stdin_s s) (stdout_s s) (stderr_s s) false
                                   (c_socket_open s) (sent s))
           | _ :: _ =>
               match stdin_s s with
               | None => Raised "AttributeError"
               | Some i =>
                   Done (mkStreams (Some (update i s_data)) (stdout_s s) (stderr_s s)
                                   (stdin_active s) (c_socket_open s) (sent s ++ s_data))
               end
           end
  | SocketFailed => Raised "Failed to read all data from the container"
  | SocketReady s_type s_data =>
      match s_data with
      | [] => Done (mkStreams (stdin_s s) (stdout_s s) (stderr_s s) (stdin_active s)
                              false (sent s))
      | _ :: _ =>
          if Z.eqb s_type 1 then
            match stdout_s s with
            | Some o => Done (mkStreams (stdin_s s) (Some (deliver buffer o s_data))
                                        (stderr_s s) (stdin_active s) (c_socket_open s) (sent s))
            | None => Done s
            end
          else if Z.eqb s_type 2 then
            Done (mkStreams (stdin_s s) (stdout_s s) (deliver buffer (stderr_s s) s_data)
                            (stdin_active s) (c_socket_open s) (sent s))
          else Done s
      end
  end.

Fixpoint handle_all (buffer : bool) (select_in : list Ready) (s : Streams)
  : Outcome Streams :=
  match select_in with
  | [] => Done s
  | sel :: rest =>
      match handle buffer sel s with
      | Done s' => handle_all buffer rest s'
      | Raised e => Raised e
      | Blocked => Blocked
      end
  end.

(** [while c_socket_open: ...]; [Blocked] when [select] has nothing more
    to return while the socket is still open. *)
Fixpoint io_loop (buffer : bool) (selects : list Select) (s : Streams)
  : Outcome Streams :=
  if negb (c_socket_open s) then Done s
  else match selects with
       | [] => Blocked
       | Unsupported :: rest =>
           if stdin_active s
           then io_loop buffer rest
                  (mkStreams (stdin_s s) (stdout_s s) (stderr_s s) false
                             (c_socket_open s) (sent s))
           else Raised "io.UnsupportedOperation"
       | Selected select_in :: rest =>
           match handle_all buffer select_in s with
           | Done s' => io_loop buffer rest s'
           | Raised e => Raised e
           | Blocked => Blocked
           end
       end.

Definition or_empty (l : option (list string)) : list string :=
  match l with Some (x :: r) => x :: r | _ => [] end.

(** [cmd_args if cmd_args else cmd] *)
Definition user_cmd (self : ToolImage) (cmd_args : list string) : list string :=
  match cmd_args with [] => or_empty (image_cmd self) | _ :: _ => cmd_args end.

(** [entry_point + user_cmd], the command line given to [exec_create]. *)
Definition full_cmd (self : ToolImage) (cmd_args : list string) : list string :=
  let entry_point :=
    match entrypoint self with
    | Some e => if str_truthy e then [e] else or_empty (image_entrypoint self)
    | None => or_empty (image_entrypoint self)
    end in
  entry_point ++ user_cmd self cmd_args.

Definition raw_of (s : option ToolStream) : bytes :=
  match s with Some t => raw t | None => [] end.

(** [if s and s.data_length: files.append(FileLog(Path(p), s.md5.hexdigest()))] *)
Definition stream_record (hexdigest : bytes -> string) (p : Path)
           (s : option ToolStream) : list FileLog :=
  match s with
  | Some t => match data_length t with
              | 0 => []
              | S _ => [mkFileLog p (hexdigest (md5 t))]
              end
  | None => []
  end.

(** The code after the loop: exit code, raw data, stream digests.
    [inspect_exit_code] is [inspect.get('ExitCode')], [None] when the key
    is absent. *)
Definition collect (hexdigest : bytes -> string) (self : ToolImage)
           (inspect_exit_code : option Z) (log : CommandLog) (s : Streams) : CommandLog :=
  let code := default 0%Z inspect_exit_code in
  let ins := if Z.eqb code 0 then stream_record hexdigest "/dev/stdin" (stdin_s s) else [] in
  let outs :=
    if Z.eqb code 0
    then stream_record hexdigest "/dev/stdout" (stdout_s s)
         ++ stream_record hexdigest "/dev/stderr" (Some (stderr_s s))
    else [] in
  mkCommandLog (command log) code
               (if buffer_output self then raw_of (stdin_s s) else stdin log)
               (if buffer_output self then raw_of (stdout_s s) else stdout log)
               (if buffer_output self then raw (stderr_s s) else stderr log)
               (in_files log ++ ins) (out_files log ++ outs).

Definition container_exec (hexdigest : bytes -> string) (self : ToolImage)
           (selects : list Select) (inspect_exit_code : option Z)
           (cmd_args : list string) (read_stdin write_stdout : bool)
  : Outcome CommandLog :=
  let log := new_CommandLog (name self :: user_cmd self cmd_args) in
  let stdin_s := if read_stdin then Some new_ToolStream else None in
  let stdout_s := if write_stdout then Some new_ToolStream else None in
  let stderr_s := new_ToolStream in
  match io_loop (buffer_output self) selects
                (mkStreams stdin_s stdout_s stderr_s read_stdin true []) with
  | Done s => Done (collect hexdigest self inspect_exit_code log s)
  | Raised e => Raised e
  | Blocked => Blocked
  end.

(** What the loop handles of a run: the ready streams of every [select]
    up to and including the one in which the container socket reports
    the end of its stream. *)
Definition is_eof (r : Ready) : bool :=
  match r with SocketReady _ [] => true | _ => false end.

Fixpoint handled (selects : list Select) : list Ready :=
  match selects with
  | [] => []
  | Unsupported :: rest => handled rest
  | Selected select_in :: rest =>
      if existsb is_eof select_in then select_in else select_in ++ handled rest
  end.

(** The bytes read from standard input, and the bytes the container
    produced on the stream of type [t] (1: stdout, 2: stderr). *)
Definition stdin_bytes (selects : list Select) : bytes :=
  flat_map (fun r => match r with StdinReady d => d | _ => [] end) (handled selects).

Definition produced (t : Z) (selects : list Select) : bytes :=
  flat_map (fun r => match r with
                     | SocketReady t' d => if Z.eqb t' t then d else []
                     | _ => []
                     end) (handled selects).

End Frontend.

(** Notions used to state what the runner records. *)
Module FrontendSpec.
Import Frontend.

Definition stdin_of (rs : list Ready) : bytes :=
  flat_map (fun r => match r with StdinReady d => d | _ => [] end) rs.

Definition produced_of (t : Z) (rs : list Ready) : bytes :=
  flat_map (fun r => match r with
                     | SocketReady t' d => if Z.eqb t' t then d else []
                     | _ => []
                     end) rs.

(** The hash object and the byte count of a stream agree with [acc];
    a stream that does not exist has been given nothing. *)
Definition tracks_opt (s : option ToolStream) (acc : bytes) : Prop :=
  match s with
  | Some t => md5 t = acc ∧ data_length t = length acc
  | None => True
  end.

Definition tracks (s : Streams) (a o e : bytes) : Prop :=
  tracks_opt (stdin_s s) a ∧ (stdin_s s = None → a = []) ∧
  tracks_opt (stdout_s s) o ∧
  tracks_opt (Some (stderr_s s)) e.

Definition present (s : option ToolStream) : bool :=
  match s with Some _ => true | None => false end.

(** An execution whose standard output carries the output archive
    ([write_stdout = False]): the tool prints one byte, then the stream
    ends. *)
Definition tool : ToolImage := mkToolImage "cincan/env" None None None false.
Definition one_byte_run : list Select :=
  [Selected [SocketReady 1 [Byte.x78]]; Selected [SocketReady 0 []]].

(** An execution that reads two bytes from standard input and prints one
    byte on each output stream. *)
Definition busy_run : list Select :=
  [Selected [SocketReady 1 [Byte.x6f]; StdinReady [Byte.x69; Byte.x6e]];
   Selected [StdinReady []];
   Selected [SocketReady 2 [Byte.x65]];
   Selected [SocketReady 0 []]].

End FrontendSpec.

(** ** Notions used to state the properties of the traversal *)

(** The digest a call works with: the one passed when it is truthy, the
    hash of the file on disk otherwise. *)
Definition digest_given (digest : option string) : bool :=
  match digest with
  | Some d => str_truthy d
  | None => false
  end.

Definition effective_digest (w : World) (digest : option string) (file : Path) : string :=
  match digest with
  | Some d => if str_truthy d then d else hash_of w file
  | None => hash_of w file
  end.

(** The visitation key of the recursive call made on a store record. *)
Definition record_key (w : World) (f : FileLog) : string :=
  file_check (path f) (effective_digest w (Some (md5 f)) (path f)).

Definition store_keys (w : World) (log : CommandLogIndex) : gset string :=
  list_to_set (map (record_key w) (store_files log)).

(** The state after [digest or self.hash_of(file)]. *)
Definition traced (digest : option string) (file : Path) (st : State) : State :=
  if digest_given digest then st else mkState (sets st) (hashed st ++ [file]).

(** The set object a call works on, and the state after
    [already_covered or set([])]. *)
Definition covered_loc (already_covered : option nat) (st : State) : nat :=
  match already_covered with
  | Some l => if decide (set_at st l = ∅) then length (sets st) else l
  | None => length (sets st)
  end.

Definition covered_state (already_covered : option nat) (st : State) : State :=
  match already_covered with
  | Some l => if decide (set_at st l = ∅)
              then mkState (sets st ++ [∅]) (hashed st) else st
  | None => mkState (sets st ++ [∅]) (hashed st)
  end.

(** The state after [already_covered.add(file_check)]. *)
Definition added (l : nat) (key : string) (st : State) : State :=
  mkState (<[l := {[key]} ∪ set_at st l]> (sets st)) (hashed st).

(** [st'] differs from [st] at most in the set object [l], which has only
    grown, and in the trace. *)
Definition extends (l : nat) (st st' : State) : Prop :=
  l < length (sets st) ∧
  ∃ V', sets st' = <[l := V']> (sets st) ∧ set_at st l ⊆ V'.

(** An entry matches a digest in direction [out]. *)
Definition matches (out : bool) (file_digest : string) (c : CommandLog) : bool :=
  digest_here file_digest (match_files out c).

(** The anchor of a call is already in the set the call works on. *)
Definition visited (w : World) (file : Path) (ac : option nat)
           (digest : option string) (st : State) : bool :=
  let st1 := traced digest file st in
  bool_decide (file_check file (effective_digest w digest file)
               ∈ set_at (covered_state ac st1) (covered_loc ac st1)).

(** The file node built for a store record, and the command node built for
    a matching entry. *)
Definition child_of_record (w : World) (self : CommandInspector) (out : bool)
           (f : FileLog) (t : FileDependency) : Prop :=
  fd_file t = work_path w self (path f) ∧
  fd_digest t = effective_digest w (Some (md5 f)) (path f) ∧
  fd_out t = out.

Definition node_of_entry (w : World) (self : CommandInspector) (out : bool)
           (c : CommandLog) (cn : CommandDependency) : Prop :=
  cd_command cn = c ∧ cd_out cn = out ∧
  Forall2 (child_of_record w self out) (next_files out c) (cd_next cn).

(** The anchor node without children. *)
Definition leaf (w : World) (self : CommandInspector) (out : bool)
           (file : Path) (digest : option string) : FileDependency :=
  mkFileDependency (work_path w self file) (effective_digest w digest file) out [].

(** [walk2 g fs ts]: the results of [g] on the pairs of [fs] and [ts] taken
    position by position. *)
Section Walk2.
Context {A B C : Type} (g : A -> B -> list C).
Fixpoint walk2 (fs : list A) (ts : list B) {struct ts} : list C :=
  match ts, fs with
  | t :: ts', f :: fs' => g f t ++ walk2 fs' ts'
  | _, _ => []
  end.
End Walk2.

(** The visitation keys (path, colon, digest) of the file nodes of a tree
    that were given command children, in preorder.  The tree keeps the path a node was
    called with only through [__work_path]; the path is read back from the
    record of the entry the node was built for, [file] being the path of
    the anchor. *)
Fixpoint expanded_keys (file : Path) (t : FileDependency) {struct t} : list string :=
  match t with
  | mkFileDependency _ d _ next =>
      (match next with
       | [] => []
       | _ :: _ => [file +:+ ":" +:+ d]
       end) ++ flat_map expanded_keys_cmd next
  end
with expanded_keys_cmd (cn : CommandDependency) {struct cn} : list string :=
  match cn with
  | mkCommandDependency c out ts =>
      walk2 (fun f t' => expanded_keys (path f) t') (next_files out c) ts
  end.

(** The calls of [hash_of] between two states were all made for store
    records that carry the empty digest. *)
Definition hash_ok (log : CommandLogIndex) (st st' : State) : Prop :=
  ∃ L, hashed st' = hashed st ++ L ∧
       Forall (fun p => ∃ f, In f (store_files log) ∧ md5 f = "" ∧ path f = p) L.

(** Between [st] and [st'] the set object [l] has grown, the keys [ks]
    are distinct and were added to it, and only empty-digest records were
    hashed. *)
Definition seq_inv (log : CommandLogIndex) (l : nat) (ks : list string)
           (st st' : State) : Prop :=
  extends l st st' ∧ hash_ok log st st' ∧ NoDup ks ∧
  ∀ k, In k ks → (k ∉ set_at st l) ∧ (k ∈ set_at st' l).

(** [fanout] when [out] is set, [fanin] otherwise. *)
Definition traverse (w : World) (self : CommandInspector) (out : bool)
  : Path -> option nat -> option string -> M FileDependency :=
  if out then fanout w self else fanin w self.

(** ** Concrete worlds and stores used in the examples *)

Module Ex.

(** A stand-in for MD5 that keeps the examples readable: the letter [h]
    followed by the content. *)
Definition toy_hexdigest (b : bytes) : string :=
  "h" +:+ string_of_list_byte b.

(** A file system with one regular file, [/w/b], holding the byte [x];
    paths are already resolved and none is below the work directory. *)
Definition world : World :=
  mkWorld (fun p => if String.eqb p "/w/b" then Some [Byte.x78] else None)
          toy_hexdigest (fun p => p) (fun _ _ => None).

Definition st0 : State := mkState [] [].

(** [cat a.txt], as in the scenario of the specification. *)
Definition cat : CommandLog :=
  mkCommandLog ["cat"; "a.txt"] 0 [] [] []
               [mkFileLog "/w/a.txt" "d1"] [mkFileLog "/dev/stdout" "d2"].

Definition store_cat : CommandInspector := mkCommandInspector [cat] "/w".

(** The same digest produced at two paths, and the same path produced
    with two digests. *)
Definition make_p1 : CommandLog :=
  mkCommandLog ["make"; "p1"] 0 [] [] [] [] [mkFileLog "/w/p1" "dd"].
Definition copy_p2 : CommandLog :=
  mkCommandLog ["cp"; "p1"; "p2"] 0 [] [] []
               [mkFileLog "/w/p1" "dd"] [mkFileLog "/w/p2" "dd"].
Definition remake_p2 : CommandLog :=
  mkCommandLog ["make"; "p2"] 0 [] [] [] [] [mkFileLog "/w/p2" "ee"].

Definition store_copy : CommandInspector :=
  mkCommandInspector [make_p1; copy_p2; remake_p2] "/w".

(** A cycle: [a] is made from [b] and [b] from [a]. *)
Definition a_from_b : CommandLog :=
  mkCommandLog ["a-from-b"] 0 [] [] [] [mkFileLog "/w/b" "db"] [mkFileLog "/w/a" "da"].
Definition b_from_a : CommandLog :=
  mkCommandLog ["b-from-a"] 0 [] [] [] [mkFileLog "/w/a" "da"] [mkFileLog "/w/b" "db"].

Definition store_cycle : CommandInspector :=
  mkCommandInspector [a_from_b; b_from_a] "/w".

(** An entry with a record that carries the empty digest: the path was
    not a regular file when the command ran. *)
Definition unpack : CommandLog :=
  mkCommandLog ["unpack"] 0 [] [] []
               [mkFileLog "/w/a.zip" "da"] [mkFileLog "/w/b" ""].

Definition store_unpack : CommandInspector := mkCommandInspector [unpack] "/w".

End Ex.

(** Further stores: a diamond, in which [x] is reached through both
    inputs of [link], and heaps with a set object of the caller. *)
Module Ex2.

Definition gen_x : CommandLog :=
  mkCommandLog ["gen"; "x"] 0 [] [] [] [mkFileLog "/w/s" "ds"] [mkFileLog "/w/x" "dx"].
Definition cc_y : CommandLog :=
  mkCommandLog ["cc"; "y"] 0 [] [] [] [mkFileLog "/w/x" "dx"] [mkFileLog "/w/y" "dy"].
Definition cc_z : CommandLog :=
  mkCommandLog ["cc"; "z"] 0 [] [] [] [mkFileLog "/w/x" "dx"] [mkFileLog "/w/z" "dz"].
Definition link : CommandLog :=
  mkCommandLog ["link"] 0 [] [] []
               [mkFileLog "/w/y" "dy"; mkFileLog "/w/z" "dz"] [mkFileLog "/w/r" "dr"].

Definition store_diamond : CommandInspector :=
  mkCommandInspector [gen_x; cc_y; cc_z; link] "/w".

(** The caller holds one set object, empty or with one key in it. *)
Definition st_empty_set : State := mkState [∅] [].
Definition st_seeded_set : State := mkState [{["seed"]}] [].

End Ex2.

(** ** Further notions: whole trees *)

(** Every node of the tree carries the direction flag [b]. *)
Fixpoint direction_ok (b : bool) (t : FileDependency) {struct t} : bool :=
  match t with
  | mkFileDependency _ _ o next => Bool.eqb o b && forallb (direction_ok_cmd b) next
  end
with direction_ok_cmd (b : bool) (cn : CommandDependency) {struct cn} : bool :=
  match cn with
  | mkCommandDependency _ o ts => Bool.eqb o b && forallb (direction_ok b) ts
  end.

(** The entries of the command nodes of a tree, in preorder. *)
Fixpoint tree_commands (t : FileDependency) {struct t} : list CommandLog :=
  match t with
  | mkFileDependency _ _ _ next => flat_map tree_commands_cmd next
  end
with tree_commands_cmd (cn : CommandDependency) {struct cn} : list CommandLog :=
  match cn with
  | mkCommandDependency c _ ts => c :: flat_map tree_commands ts
  end.

(** The number of nodes of a tree. *)
Fixpoint node_count (t : FileDependency) {struct t} : nat :=
  match t with
  | mkFileDependency _ _ _ next => S (list_sum (map node_count_cmd next))
  end
with node_count_cmd (cn : CommandDependency) {struct cn} : nat :=
  match cn with
  | mkCommandDependency _ _ ts => S (list_sum (map node_count ts))
  end.

(** The visitation keys (path, colon, digest) of all file nodes of a
    tree, in preorder; the
    path of a node is read back as in [expanded_keys]. *)
Fixpoint all_keys (file : Path) (t : FileDependency) {struct t} : list string :=
  match t with
  | mkFileDependency _ d _ next =>
      (file +:+ ":" +:+ d) :: flat_map all_keys_cmd next
  end
with all_keys_cmd (cn : CommandDependency) {struct cn} : list string :=
  match cn with
  | mkCommandDependency c out ts =>
      walk2 (fun f t' => all_keys (path f) t') (next_files out c) ts
  end.

(** The number of occurrences of a character in a string. *)
Fixpoint count_char (c : ascii) (s : string) : nat :=
  match s with
  | EmptyString => 0
  | String c' s' => (if Ascii.eqb c' c then 1 else 0) + count_char c s'
  end.

(** No label of the tree holds a newline: the paths and digests of the
    file nodes, and the re-quoted argument vectors of the command nodes. *)
Fixpoint labels_ok (quote_args : list string -> list string) (t : FileDependency)
         {struct t} : bool :=
  match t with
  | mkFileDependency file digest _ next =>
      negb (has_char nl_char file) && negb (has_char nl_char digest)
      && forallb (labels_ok_cmd quote_args) next
  end
with labels_ok_cmd (quote_args : list string -> list string) (cn : CommandDependency)
         {struct cn} : bool :=
  match cn with
  | mkCommandDependency cmd _ ts =>
      negb (has_char nl_char (String.concat " " (quote_args (command cmd))))
      && forallb (labels_ok quote_args) ts
  end.

(** Two runs agree: both return, with the same value and related states,
    or both exhaust the budget. *)
Definition sim_res {A} (R : State -> State -> Prop) (r1 r2 : option (A * State)) : Prop :=
  match r1, r2 with
  | Some (a1, s1), Some (a2, s2) => a1 = a2 ∧ R s1 s2
  | None, None => True
  | _, _ => False
  end.

(** The set object [l1] of the first state and the set object [l2] of the
    second hold the same keys, at least one. *)
Definition same_set (l1 l2 : nat) (s1 s2 : State) : Prop :=
  set_at s1 l1 = set_at s2 l2 ∧ set_at s1 l1 ≠ ∅.

(** ** [CommandInspector.print_fanout] and [__print_fans] *)

(** An element of [List[Tuple[CommandLog, List]]]: a command and what
    comes next, which is gone into when it is a list
    ([isinstance(next, List)]) and skipped otherwise ([None] here). *)
Unset Elimination Schemes.
Inductive Fan : Type :=
| mkFan (cmd : CommandLog) (next : option (list Fan)).
Set Elimination Schemes.

Section PrintFans.

Variable quote_args : list string -> list string.

(** One turn of the loop of [__print_fans], for the element [f]: the
    strings given to [writer.write], in order. *)
Fixpoint print_fan (f : Fan) (fanout : bool) (indent : string) {struct f}
  : list string :=
  match f with
  | mkFan cmd next =>
      let cmd_string := String.concat " " (quote_args (command cmd)) in
      (indent +:+ cmd_string +:+ nl)
        :: match next with
           | Some l => flat_map (fun f' => print_fan f' fanout (indent +:+ "  ")) l
           | None => []
           end
  end.

(** [__print_fans]: [for cmd, next in fans: ...]. *)
Definition print_fans (fans : list Fan) (fanout : bool) (indent : string)
  : list string :=
  flat_map (fun f => print_fan f fanout indent) fans.

Definition print_fanout (fanout : list Fan) : list string :=
  print_fans fanout true "".

End PrintFans.

(** The commands of a forest in the order they are met, each with its
    depth. *)
Fixpoint fan_preorder (depth : nat) (f : Fan) {struct f} : list (nat * CommandLog) :=
  match f with
  | mkFan cmd next =>
      (depth, cmd)
        :: match next with
           | Some l => flat_map (fan_preorder (S depth)) l
           | None => []
           end
  end.

(** A bound on the nesting of a forest element. *)
Fixpoint fan_height (f : Fan) {struct f} : nat :=
  match f with
  | mkFan _ next =>
      S (match next with
         | Some l => list_max (map fan_height l)
         | None => 0
         end)
  end.

(** Between [st] and [st'] the set object [l] has gained exactly the keys
    [ks], and no other set object has changed. *)
Definition grows (l : nat) (ks : list string) (st st' : State) : Prop :=
  extends l st st' ∧ set_at st' l = set_at st l ∪ list_to_set ks.

(** ** [ToolImage.__unpack_container_stream] *)

Module Wire.

(** What the container socket still has to deliver, in the pieces in
    which [read] will hand it over; nothing left is the end of the
    stream. *)
Definition Socket := list bytes.

(** [c_socket.read(n)]: at most [n] bytes of the next piece. *)
Definition read (n : nat) (s : Socket) : bytes * Socket :=
  match s with
  | [] => ([], [])
  | piece :: rest =>
      if (length piece <=? n)%nat then (piece, rest)
      else (take n piece, drop n piece :: rest)
  end.

(** The outcome of one of the two read loops: the buffer has [want]
    bytes, or [read] returned nothing before that; [Spent] is the
    exhausted budget of the model. *)
Inductive Fill :=
| Filled (buf : bytes) (s : Socket)
| Short (buf : bytes) (s : Socket)
| Spent.

(** [while len(buf) < want: r = c_socket.read(want - len(buf));
    if not r: ...; buf.extend(r)] *)
Fixpoint fill (fuel want : nat) (buf : bytes) (s : Socket) {struct fuel} : Fill :=
  match fuel with
  | 0 => if (want <=? length buf)%nat then Filled buf s else Spent
  | S fuel' =>
      if (want <=? length buf)%nat then Filled buf s
      else
        let (r, s') := read (want - length buf) s in
        match r with
        | [] => Short buf s'
        | _ :: _ => fill fuel' want (buf ++ r) s'
        end
  end.

Definition byte_value (b : Byte.byte) : Z := Z.of_N (Byte.to_N b).

(** [struct.unpack('>Q', buf)[0]]: the bytes as a big-endian number. *)
Definition unpack_Q (buf : bytes) : Z :=
  fold_left (fun acc b => (acc * 256 + byte_value b)%Z) buf 0%Z.

(** The frame header: [s_type = s_len >> 56] and
    [s_len = s_len & 0xffffffffffffff]. *)
Definition header_type (buf : bytes) : Z := Z.shiftr (unpack_Q buf) 56.
Definition header_len (buf : bytes) : Z := Z.land (unpack_Q buf) 0xffffffffffffff.

(** The method: the result and what is left in the socket.  The end of
    the stream inside the header gives [(0, b'')]; inside the data it
    raises. *)
Definition unpack_container_stream (s : Socket)
  : Frontend.Outcome (Z * bytes) * Socket :=
  match fill 8 8 [] s with
  | Short _ s' => (Frontend.Done (0%Z, []), s')
  | Spent => (Frontend.Blocked, s)
  | Filled buf s1 =>
      let s_type := header_type buf in
      let s_len := Z.to_nat (header_len buf) in
      match fill s_len s_len [] s1 with
      | Filled data s2 => (Frontend.Done (s_type, data), s2)
      | Short _ s2 =>
          (Frontend.Raised "Failed to read all data from the container", s2)
      | Spent => (Frontend.Blocked, s1)
      end
  end.

(** What the loop of [__container_exec] is given for the socket. *)
Definition ready_of (r : Frontend.Outcome (Z * bytes)) : Frontend.Ready :=
  match r with
  | Frontend.Done (s_type, s_data) => Frontend.SocketReady s_type s_data
  | _ => Frontend.SocketFailed
  end.

(** No piece is empty: [read] returns nothing at the end of the stream
    only. *)
Definition live (s : Socket) : Prop := Forall (fun piece => piece ≠ []) s.

(** A frame of type 1 with the two bytes [hi], delivered in three
    pieces, followed by the first byte of a next header. *)
Definition hi_frame : Socket :=
  [[Byte.x01; Byte.x00; Byte.x00];
   [Byte.x00; Byte.x00; Byte.x00; Byte.x00; Byte.x02; Byte.x68];
   [Byte.x69; Byte.x02]].

End Wire.

(** ** Further notions for the runner *)

Module RunnerSpec.
Import Frontend.

(** The streams [__container_exec] starts its loop with. *)
Definition initial_streams (read_stdin write_stdout : bool) : Streams :=
  mkStreams (if read_stdin then Some new_ToolStream else None)
            (if write_stdout then Some new_ToolStream else None)
            new_ToolStream read_stdin true [].

(** An output stream has kept [acc] in [raw] when the output is buffered
    and has written it to the host stream otherwise. *)
Definition kept (buffer : bool) (s : option ToolStream) (acc : bytes) : Prop :=
  match s with
  | Some t => raw t = (if buffer then acc else []) ∧
              stream t = (if buffer then [] else acc)
  | None => True
  end.

(** [stdin_s] collects nothing in [raw]. *)
Definition stdin_raw_empty (s : Streams) : Prop :=
  match stdin_s s with
  | Some i => raw i = []
  | None => True
  end.

(** The socket is closed. *)
Definition closed (s : Streams) : Streams :=
  mkStreams (stdin_s s) (stdout_s s) (stderr_s s) (stdin_active s) false (sent s).

End RunnerSpec.

(** ** [ToolImage.__run] and the queries of [main] *)

Module Run.
Import Frontend.

(** [sorted(l)] on strings. *)
Definition sorted (l : list string) : list string := merge_sort String.le l.

(** [t == '-'] for an optional string. *)
Definition is_dash (t : option string) : bool :=
  match t with
  | Some x => String.eqb x "-"
  | None => false
  end.

(** [not f.path.as_posix().startswith('/dev/')] *)
Definition not_dev (f : FileLog) : bool := negb (String.prefix "/dev/" (path f)).

(** [[f.path.relative_to(work_dir).as_posix() for f in files]];
    [relative_to] raises [ValueError] for a path that is not below
    [work_dir]. *)
Fixpoint relative_paths (w : World) (work_dir : Path) (files : list FileLog)
  : option (list string) :=
  match files with
  | [] => Some []
  | f :: rest =>
      match relative_to w (path f) work_dir, relative_paths w work_dir rest with
      | Some r, Some rs => Some (r :: rs)
      | _, _ => None
      end
  end.

Record RunResult := mkRunResult {
  run_log : CommandLog;
  upload_files : list string;
  download_files : list string
}.

(** [__run] from the point where the container exists.  The upload and
    the download are done by [TarTool], which is not part of the sources
    at hand: [uploaded] stands for the records [upload] adds to
    [in_files], [upload_keys] for the host paths of the files to upload,
    and [downloaded] for what [download_files] returns.  [input_tar] and
    [output_tar] are the attributes of the tool. *)
Definition run (w : World) (hexd : bytes -> string) (self : ToolImage)
           (input_tar output_tar : option string) (cwd : Path)
           (upload_keys : list Path) (uploaded downloaded : list FileLog)
           (selects : list Select) (inspect_exit_code : option Z)
           (cmd_args : list string) : Outcome RunResult :=
  match container_exec hexd self selects inspect_exit_code cmd_args
                       (negb (is_dash input_tar)) (negb (is_dash output_tar)) with
  | Raised e => Raised e
  | Blocked => Blocked
  | Done log0 =>
      let log1 :=
        mkCommandLog (command log0) (exit_code log0) (stdin log0) (stdout log0)
                     (stderr log0)
                     (in_files log0 ++ uploaded)
                     (out_files log0
                      ++ (if Z.eqb (exit_code log0) 0 then downloaded else [])) in
      match relative_paths w cwd (List.filter not_dev (out_files log1)) with
      | None => Raised "ValueError"
      | Some rels => Done (mkRunResult log1 (sorted upload_keys) (sorted rels))
      end
  end.

End Run.

Section MainQuery.

Variable quote_args : list string -> list string.

(** The [fanin] and [fanout] sub-commands of [main]: the inspector works
    on the command log and the resolved current directory, the query is
    anchored at the resolved file without a digest, and the tree is
    printed.  The result is what [print] writes. *)
Definition main_query (w : World) (log : CommandLogIndex) (sub_command : string)
           (file : string) : M string :=
  let inspector := mkCommandInspector log (resolve w ".") in
  let! res := (if String.eqb sub_command "fanout"
               then fanout w inspector (resolve w file) None None
               else fanin w inspector (resolve w file) None None) in
  ret (FileDependency_str quote_args res +:+ nl).

End MainQuery.

(** A file system for the examples of [__run]: no regular files, paths
    already resolved, and [relative_to] taking the directory and the
    slash off a path below it. *)
Module RunEx.

Definition world : World :=
  mkWorld (fun _ => None) Ex.toy_hexdigest (fun p => p)
          (fun p d =>
             if String.prefix (d +:+ "/") p
             then Some (substring (S (String.length d))
                                  (String.length p - S (String.length d)) p)
             else None).

(** The tool of the examples with buffered output and [sh] as the [Cmd]
    of its image. *)
Definition buffered_tool : Frontend.ToolImage :=
  Frontend.mkToolImage "cincan/env" None None (Some ["sh"]) true.

End RunEx.

(** ** [ToolImage.run_get_string] *)

Section RunGetString.
Import Frontend Run.

(** [bytes.decode('utf8')]; [None] is [UnicodeDecodeError]. *)
Variable decode_utf8 : bytes -> option string.

(** [self.buffer_output = b] *)
Definition set_buffer_output (self : ToolImage) (b : bool) : ToolImage :=
  mkToolImage (name self) (entrypoint self) (image_entrypoint self) (image_cmd self) b.

(** [self.buffer_output = True; log = self.__run(args);
    return log.stdout.decode('utf8') + log.stderr.decode('utf8')] *)
Definition run_get_string (w : World) (hexd : bytes -> string) (self : ToolImage)
           (input_tar output_tar : option string) (cwd : Path)
           (upload_keys : list Path) (uploaded downloaded : list FileLog)
           (selects : list Select) (inspect_exit_code : option Z)
           (cmd_args : list string) : Outcome string :=
  match run w hexd (set_buffer_output self true) input_tar output_tar cwd
            upload_keys uploaded downloaded selects inspect_exit_code cmd_args with
  | Raised e => Raised e
  | Blocked => Blocked
  | Done r =>
      match decode_utf8 (stdout (run_log r)) with
      | None => Raised "UnicodeDecodeError"
      | Some out =>
          match decode_utf8 (stderr (run_log r)) with
          | None => Raised "UnicodeDecodeError"
          | Some err => Done (out +:+ err)
          end
      end
  end.

End RunGetString.

(** * Properties *)

(** ** The monadic steps *)

Lemma digest_or_hash_eq w digest file st :
  digest_or_hash w digest file st
  = Some (effective_digest w digest file, traced digest file st).
Proof.
  unfold digest_or_hash, effective_digest, traced, digest_given.
  destruct digest as [d|]; [destruct (str_truthy d)|]; reflexivity.
Qed.

Lemma set_or_new_eq ac st :
  set_or_new ac st = Some (covered_loc ac st, covered_state ac st).
Proof.
  unfold set_or_new, covered_loc, covered_state, new_set.
  destruct ac as [l|]; [destruct (decide _)|]; reflexivity.
Qed.

Lemma set_at_valid st l : set_at st l ≠ ∅ → l < length (sets st).
Proof.
  unfold set_at. intros H.
  destruct (sets st !! l) eqn:E; [eapply lookup_lt_Some; eauto | done].
Qed.

Lemma set_at_fresh st h : set_at (mkState (sets st ++ [∅]) h) (length (sets st)) = ∅.
Proof.
  unfold set_at; simpl.
  rewrite lookup_app_r by lia. by rewrite Nat.sub_diag.
Qed.

Lemma set_at_added l key st :
  l < length (sets st) → set_at (added l key st) l = {[key]} ∪ set_at st l.
Proof.
  intros H. unfold added, set_at at 1; simpl.
  by rewrite list_lookup_insert_eq.
Qed.

Lemma set_at_traced digest file st l : set_at (traced digest file st) l = set_at st l.
Proof. unfold traced. by destruct (digest_given digest). Qed.

Lemma sets_traced digest file st : sets (traced digest file st) = sets st.
Proof. unfold traced. by destruct (digest_given digest). Qed.

(** One unfolding of the traversal, with the monadic steps evaluated. *)
Lemma fan_unfold w self n out file ac digest st :
  fan w self (S n) out file ac digest st =
  let d := effective_digest w digest file in
  let st1 := traced digest file st in
  let l := covered_loc ac st1 in
  let st2 := covered_state ac st1 in
  if bool_decide (file_check file d ∈ set_at st2 l)
  then Some (mkFileDependency (work_path w self file) d out [], st2)
  else match scan (fun f => fan w self n out (path f) (Some l) (Some (md5 f)))
                  out d (list_entries (log self) true) (added l (file_check file d) st2) with
       | Some (next, st') => Some (mkFileDependency (work_path w self file) d out next, st')
       | None => None
       end.
Proof.
  cbn [fan]. unfold bind at 1. rewrite digest_or_hash_eq.
  unfold bind at 1. rewrite set_or_new_eq.
  unfold bind at 1. unfold set_contains at 1. cbv zeta.
  destruct (bool_decide _); [reflexivity|].
  unfold bind at 1. unfold set_add at 1. fold (added (covered_loc ac (traced digest file st))
    (file_check file (effective_digest w digest file)) (covered_state ac (traced digest file st))).
  unfold bind at 1.
  destruct (scan _ _ _ _ _) as [[next st']|]; reflexivity.
Qed.

(** ** [extends] is a preorder on the states with the set object *)

Lemma extends_refl l st : l < length (sets st) → extends l st st.
Proof.
  intros H. split; [done|]. exists (set_at st l). split; [|done].
  unfold set_at. destruct (lookup_lt_is_Some_2 (sets st) l H) as [V E].
  rewrite E. simpl. symmetry. by apply list_insert_id.
Qed.

Lemma extends_set_at l st st' V' :
  l < length (sets st) → sets st' = <[l := V']> (sets st) → set_at st' l = V'.
Proof.
  intros H E. unfold set_at. rewrite E. by rewrite list_lookup_insert_eq.
Qed.

Lemma extends_trans l st1 st2 st3 :
  extends l st1 st2 → extends l st2 st3 → extends l st1 st3.
Proof.
  intros [H1 (V2 & E2 & S2)] [H2 (V3 & E3 & S3)].
  split; [done|]. exists V3. split.
  - rewrite E3, E2. by rewrite list_insert_insert_eq.
  - rewrite (extends_set_at l st1 st2 V2 H1 E2) in S3. set_solver.
Qed.

Lemma extends_length l st st' : extends l st st' → length (sets st') = length (sets st).
Proof. intros [_ (V & E & _)]. rewrite E. apply length_insert. Qed.

Lemma extends_subseteq l st st' : extends l st st' → set_at st l ⊆ set_at st' l.
Proof.
  intros [H (V & E & S)]. by rewrite (extends_set_at l st st' V H E).
Qed.

Lemma extends_other l st st' j :
  extends l st st' → j ≠ l → sets st' !! j = sets st !! j.
Proof.
  intros [H (V & E & S)] Hj. rewrite E. by apply list_lookup_insert_ne.
Qed.

Lemma extends_added l key st : l < length (sets st) → extends l st (added l key st).
Proof.
  intros H. split; [done|]. eexists. split; [reflexivity|]. set_solver.
Qed.

(** ** The loops *)

Lemma mapM_nil {A B} (f : A -> M B) st : mapM f [] st = Some ([], st).
Proof. reflexivity. Qed.

Lemma mapM_cons {A B} (f : A -> M B) a l st :
  mapM f (a :: l) st =
  match f a st with
  | Some (b, st1) => match mapM f l st1 with
                     | Some (bs, st2) => Some (b :: bs, st2)
                     | None => None
                     end
  | None => None
  end.
Proof.
  cbn [mapM]. unfold bind at 1. destruct (f a st) as [[b st1]|]; [|reflexivity].
  unfold bind at 1. destruct (mapM f l st1) as [[bs st2]|]; reflexivity.
Qed.

Lemma scan_cons rec out d c rest st :
  scan rec out d (c :: rest) st =
  if matches out d c then
    match mapM rec (next_files out c) st with
    | Some (ts, st1) => match scan rec out d rest st1 with
                        | Some (cs, st2) => Some (mkCommandDependency c out ts :: cs, st2)
                        | None => None
                        end
    | None => None
    end
  else scan rec out d rest st.
Proof.
  cbn [scan]. unfold matches. destruct (digest_here d (match_files out c)); [|reflexivity].
  unfold bind at 1. destruct (mapM rec _ st) as [[ts st1]|]; [|reflexivity].
  unfold bind at 1. destruct (scan rec out d rest st1) as [[cs st2]|]; reflexivity.
Qed.

(** The loop as it reads in each of the two methods. *)
Remark scan_fanin rec file_digest cmd rest :
  scan rec false file_digest (cmd :: rest) =
  if digest_here file_digest (out_files cmd) then
    let! cmd_next := mapM rec (in_files cmd) in
    let! file_next := scan rec false file_digest rest in
    ret (mkCommandDependency cmd false cmd_next :: file_next)
  else scan rec false file_digest rest.
Proof. reflexivity. Qed.

Remark scan_fanout rec file_digest cmd rest :
  scan rec true file_digest (cmd :: rest) =
  if digest_here file_digest (in_files cmd) then
    let! cmd_next := mapM rec (out_files cmd) in
    let! file_next := scan rec true file_digest rest in
    ret (mkCommandDependency cmd true cmd_next :: file_next)
  else scan rec true file_digest rest.
Proof. reflexivity. Qed.

(** A loop whose body always returns and keeps [P] returns and keeps [P]. *)
Lemma mapM_total {A B} (f : A -> M B) (P : State -> Prop) l :
  (∀ a, In a l → ∀ st, P st → ∃ b st', f a st = Some (b, st') ∧ P st') →
  ∀ st, P st → ∃ bs st', mapM f l st = Some (bs, st') ∧ P st'.
Proof.
  induction l as [|a l IH]; intros Hf st HP.
  - exists [], st. done.
  - destruct (Hf a (or_introl eq_refl) st HP) as (b & st1 & E1 & P1).
    destruct (IH (fun a' Ha => Hf a' (or_intror Ha)) st1 P1) as (bs & st2 & E2 & P2).
    exists (b :: bs), st2. rewrite mapM_cons, E1, E2. done.
Qed.

Lemma scan_total rec (P : State -> Prop) out d entries :
  (∀ c f, In c entries → In f (next_files out c) →
          ∀ st, P st → ∃ t st', rec f st = Some (t, st') ∧ P st') →
  ∀ st, P st → ∃ cs st', scan rec out d entries st = Some (cs, st') ∧ P st'.
Proof.
  induction entries as [|c rest IH]; intros Hf st HP.
  - exists [], st. done.
  - rewrite scan_cons.
    assert (Hrest : ∀ c' f, In c' rest → In f (next_files out c') →
              ∀ st, P st → ∃ t st', rec f st = Some (t, st') ∧ P st')
      by (intros c' f Hc; apply Hf; by right).
    destruct (matches out d c).
    + destruct (mapM_total rec P (next_files out c)
                  (fun f Hin => Hf c f (or_introl eq_refl) Hin) st HP)
        as (ts & st1 & E1 & P1).
      destruct (IH Hrest st1 P1) as (cs & st2 & E2 & P2).
      exists (mkCommandDependency c out ts :: cs), st2. rewrite E1, E2. done.
    + apply IH; done.
Qed.

(** The loops only depend on what the recursive call returns. *)
Lemma mapM_mono {A B} (f g : A -> M B) l :
  (∀ a st r, f a st = Some r → g a st = Some r) →
  ∀ st r, mapM f l st = Some r → mapM g l st = Some r.
Proof.
  intros Hfg. induction l as [|a l IH]; intros st r; [done|].
  rewrite !mapM_cons. destruct (f a st) as [[b st1]|] eqn:E1; [|done].
  rewrite (Hfg _ _ _ E1).
  destruct (mapM f l st1) as [[bs st2]|] eqn:E2; [|done].
  by rewrite (IH _ _ E2).
Qed.

Lemma scan_mono rec1 rec2 out d entries :
  (∀ f st r, rec1 f st = Some r → rec2 f st = Some r) →
  ∀ st r, scan rec1 out d entries st = Some r → scan rec2 out d entries st = Some r.
Proof.
  intros Hrec. induction entries as [|c rest IH]; intros st r; [done|].
  rewrite !scan_cons. destruct (matches out d c); [|apply IH].
  destruct (mapM rec1 _ st) as [[ts st1]|] eqn:E1; [|done].
  rewrite (mapM_mono rec1 rec2 _ Hrec _ _ E1).
  destruct (scan rec1 out d rest st1) as [[cs st2]|] eqn:E2; [|done].
  by rewrite (IH _ _ E2).
Qed.

(** ** Records of the store *)

Lemma next_files_store out c (log : CommandLogIndex) f :
  In c log → In f (next_files out c) → In f (store_files log).
Proof.
  intros Hc Hf. unfold store_files. apply in_flat_map. exists c. split; [done|].
  apply in_or_app. unfold next_files in Hf. destruct out; auto.
Qed.

Lemma list_entries_In (log : CommandLogIndex) reverse c :
  In c (list_entries log reverse) ↔ In c log.
Proof.
  unfold list_entries. destruct reverse; [|done]. symmetry. apply in_rev.
Qed.

Lemma record_key_store w (log : CommandLogIndex) f :
  In f (store_files log) → record_key w f ∈ store_keys w log.
Proof.
  intros H. unfold store_keys. apply elem_of_list_to_set, list_elem_of_In.
  by apply in_map.
Qed.

Lemma store_keys_size w (log : CommandLogIndex) :
  (size (store_keys w log) ≤ length (store_files log))%nat.
Proof.
  unfold store_keys. generalize (store_files log). intros l.
  induction l as [|f l IH]; cbn [map length].
  - by rewrite list_to_set_nil, size_empty.
  - rewrite list_to_set_cons.
    pose proof (size_union_alt ({[record_key w f]} : gset string)
                  (list_to_set (map (record_key w) l))) as H.
    rewrite size_singleton in H.
    assert (size ((list_to_set (map (record_key w) l) : gset string) ∖ {[record_key w f]})
            ≤ size (list_to_set (map (record_key w) l) : gset string))%nat
      by (apply subseteq_size; set_solver).
    lia.
Qed.

Lemma extends_traced l digest file st :
  l < length (sets st) → extends l st (traced digest file st).
Proof.
  intros H. destruct (extends_refl l st H) as [_ (V & E & S)].
  split; [done|]. exists V. by rewrite sets_traced.
Qed.

(** ** Termination *)

Section Total.
Context (w : World) (self : CommandInspector).

(** A recursive call on a store record returns whenever the budget
    exceeds the number of store keys that are not yet in the shared set. *)
Lemma fan_record_total n out :
  ∀ f l st,
    In f (store_files (log self)) →
    set_at st l ≠ ∅ →
    size (store_keys w (log self) ∖ set_at st l) < n →
    ∃ t st', fan w self n out (path f) (Some l) (Some (md5 f)) st = Some (t, st')
             ∧ extends l st st'.
Proof.
  induction n as [|n IH]; intros f l st Hf Hne Hsz; [lia|].
  pose proof (set_at_valid _ _ Hne) as Hl.
  rewrite fan_unfold. cbv zeta.
  assert (Hloc : covered_loc (Some l) (traced (Some (md5 f)) (path f) st) = l).
  { unfold covered_loc. rewrite set_at_traced. by destruct (decide _). }
  assert (Hst : covered_state (Some l) (traced (Some (md5 f)) (path f) st)
                = traced (Some (md5 f)) (path f) st).
  { unfold covered_state. rewrite set_at_traced. by destruct (decide _). }
  rewrite Hloc, Hst. fold (record_key w f).
  set (st1 := traced (Some (md5 f)) (path f) st).
  assert (Hext1 : extends l st st1) by (by apply extends_traced).
  assert (Hl1 : l < length (sets st1)) by (rewrite (extends_length _ _ _ Hext1); done).
  assert (Hset1 : set_at st1 l = set_at st l) by apply set_at_traced.
  destruct (bool_decide _) eqn:Hseen.
  - eexists _, _. split; [reflexivity|done].
  - apply bool_decide_eq_false in Hseen. rewrite Hset1 in Hseen.
    set (st2 := added l (record_key w f) st1).
    assert (Hext2 : extends l st st2).
    { eapply extends_trans; [exact Hext1|]. by apply extends_added. }
    destruct (scan_total (fun f' => fan w self n out (path f') (Some l) (Some (md5 f')))
                (fun s => extends l st2 s) out
                (effective_digest w (Some (md5 f)) (path f))
                (list_entries (log self) true)) with (st := st2)
      as (cs & st' & E & P).
    + intros c f' Hc Hf' s Hs.
      apply list_entries_In in Hc.
      pose proof (next_files_store _ _ _ _ Hc Hf') as Hin.
      pose proof (extends_subseteq _ _ _ Hs) as Hsub.
      assert (Hadd : set_at st2 l = {[record_key w f]} ∪ set_at st l).
      { subst st2. rewrite set_at_added by done. by rewrite Hset1. }
      rewrite Hadd in Hsub.
      destruct (IH f' l s Hin) as (t & s' & Et & Ext).
      * clear -Hsub. set_solver.
      * assert (Hlt : store_keys w (log self) ∖ set_at s l
                      ⊂ store_keys w (log self) ∖ set_at st l).
        { pose proof (record_key_store w _ _ Hf) as Hk.
          clear -Hk Hsub Hseen. set_solver. }
        apply subset_size in Hlt. lia.
      * exists t, s'. split; [done|]. by eapply extends_trans.
    + apply extends_refl. by rewrite (extends_length _ _ _ Hext2).
    + rewrite E. eexists _, _. split; [reflexivity|]. by eapply extends_trans.
Qed.

Lemma covered_loc_valid ac st :
  covered_loc ac st < length (sets (covered_state ac st)).
Proof.
  unfold covered_loc, covered_state.
  destruct ac as [l|]; [destruct (decide _) as [|Hne]|]; simpl;
    rewrite ?length_app; simpl; try lia.
  by apply set_at_valid.
Qed.

(** The first call of a traversal, whatever set it is given, returns
    within the budget. *)
Lemma fan_total out file ac digest st :
  ∃ t st', fan w self (budget self) out file ac digest st = Some (t, st').
Proof.
  unfold budget. cbn [Nat.add]. rewrite fan_unfold. cbv zeta.
  set (d := effective_digest w digest file).
  set (st1 := traced digest file st).
  set (l := covered_loc ac st1). set (st2 := covered_state ac st1).
  destruct (bool_decide _); [by eexists _, _|].
  pose proof (covered_loc_valid ac st1) as Hl. fold l st2 in Hl.
  set (st3 := added l (file_check file d) st2).
  destruct (scan_total
              (fun f' => fan w self (S (length (store_files (log self)))) out
                             (path f') (Some l) (Some (md5 f')))
              (fun s => extends l st3 s) out d (list_entries (log self) true))
    with (st := st3) as (cs & st' & E & P).
  - intros c f' Hc Hf' s Hs.
    apply list_entries_In in Hc.
    pose proof (next_files_store _ _ _ _ Hc Hf') as Hin.
    pose proof (extends_subseteq _ _ _ Hs) as Hsub.
    subst st3. rewrite set_at_added in Hsub by done.
    destruct (fan_record_total (S (length (store_files (log self)))) out f' l s Hin)
      as (t & s' & Et & Ext).
    + clear -Hsub. set_solver.
    + pose proof (store_keys_size w (log self)) as Hsz.
      assert (Hle : (size (store_keys w (log self) ∖ set_at s l)
                     ≤ size (store_keys w (log self)))%nat)
        by (apply subseteq_size; set_solver).
      lia.
    + exists t, s'. split; [done|]. by eapply extends_trans.
  - apply extends_refl. subst st3. unfold added; simpl. by rewrite length_insert.
  - rewrite E. by eexists _, _.
Qed.

(** A larger budget does not change what a call returns. *)
Lemma fan_mono (n : nat) :
  ∀ m out file ac digest st r,
    (n ≤ m)%nat →
    fan w self n out file ac digest st = Some r →
    fan w self m out file ac digest st = Some r.
Proof.
  induction n as [|n IH]; intros m out file ac digest st r Hle E; [done|].
  destruct m as [|m]; [lia|].
  rewrite fan_unfold in E. rewrite fan_unfold. cbv zeta in *.
  destruct (bool_decide _); [done|].
  match type of E with
  | match ?s with _ => _ end = _ => destruct s as [[next st']|] eqn:Es; [|done]
  end.
  rewrite (scan_mono _ (fun f => fan w self m out (path f)
                                   (Some (covered_loc ac (traced digest file st)))
                                   (Some (md5 f))) _ _ _
             (fun f s r' Hr => IH m out _ _ _ s r' (le_S_n _ _ Hle) Hr) _ _ Es).
  exact E.
Qed.

End Total.

(** ** The recursive equation of the traversal *)

Section Equation.
Context (w : World) (self : CommandInspector).

(** With the budget of [fanin]/[fanout] the model satisfies the equation
    of the source: the recursive calls are calls of the same function. *)
Lemma fan_equation out file ac digest st :
  fan w self (budget self) out file ac digest st =
  let d := effective_digest w digest file in
  let st1 := traced digest file st in
  let l := covered_loc ac st1 in
  let st2 := covered_state ac st1 in
  if visited w file ac digest st
  then Some (leaf w self out file digest, st2)
  else match scan (fun f => fan w self (budget self) out (path f) (Some l) (Some (md5 f)))
                  out d (list_entries (log self) true)
                  (added l (file_check file d) st2) with
       | Some (next, st') =>
           Some (mkFileDependency (work_path w self file) d out next, st')
       | None => None
       end.
Proof.
  destruct (fan_total w self out file ac digest st) as (t & st' & E).
  revert E. change (budget self) with (S (S (length (store_files (log self))))) at 1 2.
  rewrite fan_unfold. cbv zeta.
  unfold visited, leaf. destruct (bool_decide _); [done|].
  destruct (scan _ _ _ _ _) as [[next s]|] eqn:Es; [|done]. intros _.
  pose proof (scan_mono _
                (fun f => fan w self (budget self) out (path f)
                              (Some (covered_loc ac (traced digest file st))) (Some (md5 f)))
                _ _ _
                (fun f s0 r Hr => fan_mono w self _ (budget self) out _ _ _ s0 r
                                    (Nat.le_succ_diag_r _) Hr)
                _ _ Es) as Es'.
  by rewrite Es'.
Qed.

(** Every call returns the anchor node of its file. *)
Lemma fan_root n out file ac digest st t st' :
  fan w self n out file ac digest st = Some (t, st') →
  fd_file t = work_path w self file ∧
  fd_digest t = effective_digest w digest file ∧
  fd_out t = out.
Proof.
  destruct n as [|n]; [done|]. rewrite fan_unfold. cbv zeta.
  destruct (bool_decide _).
  - intros [= <- <-]. done.
  - destruct (scan _ _ _ _ _) as [[next s]|]; [|done]. intros [= <- <-]. done.
Qed.

End Equation.

(** ** What the loops build *)

Lemma mapM_Forall2 {A B} (f : A -> M B) (Q : A -> B -> Prop) l :
  (∀ a st b st', f a st = Some (b, st') → Q a b) →
  ∀ st bs st', mapM f l st = Some (bs, st') → Forall2 Q l bs.
Proof.
  intros Hf. induction l as [|a l IH]; intros st bs st'.
  - intros [= <- <-]. constructor.
  - rewrite mapM_cons. destruct (f a st) as [[b st1]|] eqn:E1; [|done].
    destruct (mapM f l st1) as [[bs' st2]|] eqn:E2; [|done].
    intros [= <- <-]. constructor; eauto.
Qed.

Lemma scan_Forall2 rec (Q : FileLog -> FileDependency -> Prop) out d entries :
  (∀ f st t st', rec f st = Some (t, st') → Q f t) →
  ∀ st cs st', scan rec out d entries st = Some (cs, st') →
    Forall2 (fun c cn => cd_command cn = c ∧ cd_out cn = out ∧
                         Forall2 Q (next_files out c) (cd_next cn))
            (List.filter (matches out d) entries) cs.
Proof.
  intros Hrec. induction entries as [|c rest IH]; intros st cs st'.
  - intros [= <- <-]. constructor.
  - rewrite scan_cons. cbn [List.filter]. destruct (matches out d c); [|apply IH].
    destruct (mapM rec _ st) as [[ts st1]|] eqn:E1; [|done].
    destruct (scan rec out d rest st1) as [[cs' st2]|] eqn:E2; [|done].
    intros [= <- <-]. constructor; [|eauto].
    split; [done|]. split; [done|]. simpl. eapply mapM_Forall2; eauto.
Qed.

Lemma Forall2_commands (P : CommandLog -> CommandDependency -> Prop) cs cns :
  Forall2 (fun c cn => cd_command cn = c ∧ P c cn) cs cns →
  map cd_command cns = cs.
Proof.
  induction 1 as [|c cn cs cns [Hc _] _ IH]; [done|]. simpl. by rewrite Hc, IH.
Qed.

Section Shape.
Context (w : World) (self : CommandInspector).

(** The children of the node a call returns: none when the anchor was
    already in the set, and otherwise one command node per matching
    entry, most recent entry first, each with one file node per record
    of the entry. *)
Lemma fan_children out file ac digest st t st' :
  fan w self (budget self) out file ac digest st = Some (t, st') →
  Forall2 (node_of_entry w self out)
          (if visited w file ac digest st then []
           else List.filter (matches out (effective_digest w digest file))
                            (list_entries (log self) true))
          (fd_next t).
Proof.
  rewrite fan_equation. cbv zeta. destruct (visited w file ac digest st).
  - intros [= <- <-]. constructor.
  - destruct (scan _ _ _ _ _) as [[next s]|] eqn:Es; [|done].
    intros [= <- <-]. simpl.
    eapply scan_Forall2; [|exact Es].
    intros f s0 t s1 Hr. cbv beta in Hr. by apply fan_root in Hr.
Qed.

Lemma fan_commands out file ac digest st t st' :
  fan w self (budget self) out file ac digest st = Some (t, st') →
  map cd_command (fd_next t) =
  if visited w file ac digest st then []
  else List.filter (matches out (effective_digest w digest file))
                   (list_entries (log self) true).
Proof.
  intros E. apply fan_children in E. unfold node_of_entry in E.
  by apply Forall2_commands in E.
Qed.

Lemma visited_None file digest st : visited w file None digest st = false.
Proof.
  unfold visited, covered_state, covered_loc.
  apply bool_decide_eq_false.
  rewrite (set_at_fresh (traced digest file st)). set_solver.
Qed.

End Shape.

(** ** The shared set along a traversal *)

Lemma hash_ok_refl log st : hash_ok log st st.
Proof. exists []. by rewrite app_nil_r. Qed.

Lemma hash_ok_trans log st1 st2 st3 :
  hash_ok log st1 st2 → hash_ok log st2 st3 → hash_ok log st1 st3.
Proof.
  intros (L1 & E1 & F1) (L2 & E2 & F2). exists (L1 ++ L2). split.
  - by rewrite E2, E1, app_assoc.
  - by apply Forall_app.
Qed.

Lemma extends_nonempty l st st' :
  extends l st st' → set_at st l ≠ ∅ → set_at st' l ≠ ∅.
Proof. intros H Hne. apply extends_subseteq in H. set_solver. Qed.

Lemma seq_inv_nil log l st st' :
  extends l st st' → hash_ok log st st' → seq_inv log l [] st st'.
Proof. intros He Hh. split; [done|]. split; [done|]. split; [constructor|]. intros k []. Qed.

Lemma seq_inv_app log l ks1 ks2 st1 st2 st3 :
  seq_inv log l ks1 st1 st2 → seq_inv log l ks2 st2 st3 →
  seq_inv log l (ks1 ++ ks2) st1 st3.
Proof.
  intros (E1 & H1 & N1 & K1) (E2 & H2 & N2 & K2).
  pose proof (extends_subseteq _ _ _ E1) as S1.
  pose proof (extends_subseteq _ _ _ E2) as S2.
  split; [by eapply extends_trans|]. split; [by eapply hash_ok_trans|]. split.
  - apply NoDup_app. split; [done|]. split; [|done].
    intros k Hk1 Hk2. apply list_elem_of_In in Hk1, Hk2.
    destruct (K1 k Hk1) as [_ Hin]. destruct (K2 k Hk2) as [Hnot _]. done.
  - intros k Hk. apply in_app_or in Hk. destruct Hk as [Hk|Hk].
    + destruct (K1 k Hk) as [Ha Hb]. split; [done|]. by apply S2.
    + destruct (K2 k Hk) as [Ha Hb]. split; [|done]. intros Hc. apply Ha. by apply S1.
Qed.

Lemma mapM_seq_inv log l (rec : FileLog -> M FileDependency) fs :
  (∀ f s t s', In f fs → set_at s l ≠ ∅ → rec f s = Some (t, s') →
               seq_inv log l (expanded_keys (path f) t) s s') →
  ∀ s ts s', set_at s l ≠ ∅ → mapM rec fs s = Some (ts, s') →
    seq_inv log l (walk2 (fun f t' => expanded_keys (path f) t') fs ts) s s'.
Proof.
  induction fs as [|f fs IH]; intros Hrec s ts s' Hne.
  - intros [= <- <-]. apply seq_inv_nil; [|apply hash_ok_refl].
    apply extends_refl. by apply set_at_valid.
  - rewrite mapM_cons. destruct (rec f s) as [[t s1]|] eqn:E1; [|done].
    destruct (mapM rec fs s1) as [[ts' s2]|] eqn:E2; [|done].
    intros [= <- <-]. cbn [walk2].
    pose proof (Hrec f s t s1 (or_introl eq_refl) Hne E1) as H1.
    eapply seq_inv_app; [exact H1|].
    eapply IH; [|eapply extends_nonempty; [apply H1|done]|exact E2].
    intros f' s0 t0 s0' Hin. apply Hrec. by right.
Qed.

Lemma scan_seq_inv log l rec out d entries :
  (∀ c f s t s', In c entries → In f (next_files out c) → set_at s l ≠ ∅ →
                 rec f s = Some (t, s') →
                 seq_inv log l (expanded_keys (path f) t) s s') →
  ∀ s cs s', set_at s l ≠ ∅ → scan rec out d entries s = Some (cs, s') →
    seq_inv log l (flat_map expanded_keys_cmd cs) s s'.
Proof.
  induction entries as [|c rest IH]; intros Hrec s cs s' Hne.
  - intros [= <- <-]. apply seq_inv_nil; [|apply hash_ok_refl].
    apply extends_refl. by apply set_at_valid.
  - assert (Hrest : ∀ c' f s t s', In c' rest → In f (next_files out c') →
                set_at s l ≠ ∅ → rec f s = Some (t, s') →
                seq_inv log l (expanded_keys (path f) t) s s')
      by (intros c' f s0 t s0' Hc; apply Hrec; by right).
    rewrite scan_cons. destruct (matches out d c); [|by apply IH].
    destruct (mapM rec _ s) as [[ts s1]|] eqn:E1; [|done].
    destruct (scan rec out d rest s1) as [[cs' s2]|] eqn:E2; [|done].
    intros [= <- <-]. cbn [flat_map expanded_keys_cmd].
    assert (H1 : seq_inv log l (walk2 (fun f t' => expanded_keys (path f) t')
                                      (next_files out c) ts) s s1).
    { eapply mapM_seq_inv; [|done|exact E1].
      intros f s0 t s0' Hf. apply (Hrec c); [by left|done]. }
    eapply seq_inv_app; [exact H1|].
    eapply IH; [done|eapply extends_nonempty; [apply H1|done]|exact E2].
Qed.

Section Invariant.
Context (w : World) (self : CommandInspector).

(** What a call does to the set object it works on: the set only grows,
    the anchor is in it afterwards, the nodes that were given children
    have pairwise distinct keys, all new in the set, and the only files
    hashed after the anchor are those of empty-digest records. *)
Lemma fan_inv (n : nat) :
  ∀ out file ac digest st t st',
    fan w self n out file ac digest st = Some (t, st') →
    let st1 := traced digest file st in
    let l := covered_loc ac st1 in
    seq_inv (log self) l (expanded_keys file t) (covered_state ac st1) st' ∧
    file_check file (effective_digest w digest file) ∈ set_at st' l.
Proof.
  induction n as [|n IH]; intros out file ac digest st t st'; [done|].
  rewrite fan_unfold. cbv zeta.
  set (d := effective_digest w digest file).
  set (st1 := traced digest file st).
  set (l := covered_loc ac st1). set (st2 := covered_state ac st1).
  pose proof (covered_loc_valid ac st1) as Hl. fold l st2 in Hl.
  destruct (bool_decide _) eqn:Hseen.
  - intros [= <- <-]. apply bool_decide_eq_true in Hseen. split; [|done].
    apply seq_inv_nil; [by apply extends_refl|apply hash_ok_refl].
  - apply bool_decide_eq_false in Hseen.
    set (st3 := added l (file_check file d) st2).
    destruct (scan _ _ _ _ _) as [[next s]|] eqn:Es; [|done].
    intros [= <- <-].
    assert (H3 : set_at st3 l = {[file_check file d]} ∪ set_at st2 l)
      by (by apply set_at_added).
    assert (Hscan : seq_inv (log self) l (flat_map expanded_keys_cmd next) st3 s).
    { eapply scan_seq_inv; [| |exact Es]; [|rewrite H3; set_solver].
      intros c f s0 t0 s0' Hc Hf Hne Hr. cbv beta in Hr.
      apply IH in Hr. cbv zeta in Hr. destruct Hr as [Hr _].
      assert (Hloc : covered_loc (Some l) (traced (Some (md5 f)) (path f) s0) = l).
      { unfold covered_loc. rewrite set_at_traced. by destruct (decide _). }
      assert (Hst : covered_state (Some l) (traced (Some (md5 f)) (path f) s0)
                    = traced (Some (md5 f)) (path f) s0).
      { unfold covered_state. rewrite set_at_traced. by destruct (decide _). }
      rewrite Hloc, Hst in Hr.
      replace (expanded_keys (path f) t0) with ([] ++ expanded_keys (path f) t0) by done.
      eapply seq_inv_app; [|exact Hr].
      apply seq_inv_nil; [apply extends_traced; by apply set_at_valid|].
      unfold traced, digest_given. destruct (str_truthy (md5 f)) eqn:Et.
      - apply hash_ok_refl.
      - exists [path f]. split; [done|]. constructor; [|constructor].
        exists f. split; [|split; [|done]].
        + apply list_entries_In in Hc. by eapply next_files_store.
        + destruct (md5 f); [done|discriminate]. }
    assert (Hroot : seq_inv (log self) l
                      [file_check file d] st2 st3).
    { split; [by apply extends_added|].
      split; [exists []; by rewrite app_nil_r|].
      split; [apply NoDup_singleton|].
      intros k [<-|[]]. split; [done|]. rewrite H3. set_solver. }
    split.
    + cbn [expanded_keys]. destruct next as [|cn next'].
      * simpl. apply seq_inv_nil.
        -- eapply extends_trans; [apply Hroot|apply Hscan].
        -- eapply hash_ok_trans; [apply Hroot|apply Hscan].
      * eapply seq_inv_app; [exact Hroot|exact Hscan].
    + destruct Hscan as (He & _). apply extends_subseteq in He.
      apply He. rewrite H3. set_solver.
Qed.

End Invariant.

(** ** Termination (C2) *)

(** C2. For every store, every anchor file, every optional digest and
    every set argument, [fanin] and [fanout] return a tree: the recursion
    budget of the model, which only depends on the number of file records
    of the store, is never exhausted, also when the entries encode a
    cycle.  A larger budget returns the same tree. *)
Theorem C2_fan_terminates (w : World) (self : CommandInspector) (file : Path)
        (already_covered : option nat) (digest : option string) (st : State) :
  (∃ t st', fanin w self file already_covered digest st = Some (t, st')) ∧
  (∃ t st', fanout w self file already_covered digest st = Some (t, st')) ∧
  (∀ n, (budget self ≤ n)%nat →
        fan w self n false file already_covered digest st
        = fanin w self file already_covered digest st ∧
        fan w self n true file already_covered digest st
        = fanout w self file already_covered digest st).
Proof.
  split; [apply fan_total|]. split; [apply fan_total|].
  intros n Hn. unfold fanin, fanout. split.
  - destruct (fan_total w self false file already_covered digest st) as (t & st' & E).
    rewrite E. eapply fan_mono; eauto.
  - destruct (fan_total w self true file already_covered digest st) as (t & st' & E).
    rewrite E. eapply fan_mono; eauto.
Qed.

(** The cyclic store: the traversal from [a] reaches [b], comes back to
    [a] and stops there. *)
Example cycle_fanin :
  fst <$> fanin Ex.world Ex.store_cycle "/w/a" None (Some "da") Ex.st0 =
  Some (mkFileDependency "/w/a" "da" false
          [mkCommandDependency Ex.a_from_b false
             [mkFileDependency "/w/b" "db" false
                [mkCommandDependency Ex.b_from_a false
                   [mkFileDependency "/w/a" "da" false []]]]]).
Proof. vm_compute. reflexivity. Qed.

(** ** Matching and order of the children (C1, C5) *)

Lemma digest_here_spec d files :
  digest_here d files = true ↔ ∃ f, In f files ∧ md5 f = d.
Proof.
  unfold digest_here. rewrite existsb_exists.
  split; intros (f & Hf & E); exists f; (split; [done|]).
  - by apply String.eqb_eq.
  - by apply String.eqb_eq.
Qed.

(** C1. A query ([already_covered = None]) returns the anchor node with
    the digest it works with, and an entry of the store is the command of
    one of its children if and only if one of the entry's output records
    (for [fanin]; input records for [fanout]) has exactly that digest; the
    paths of the records play no part. *)
Theorem C1_digest_exact (w : World) (self : CommandInspector) (file : Path)
        (digest : option string) (st : State) :
  let d := effective_digest w digest file in
  (∃ t st', fanin w self file None digest st = Some (t, st') ∧
            fd_digest t = d ∧
            ∀ c, In c (map cd_command (fd_next t)) ↔
                 In c (log self) ∧ ∃ f, In f (out_files c) ∧ md5 f = d) ∧
  (∃ t st', fanout w self file None digest st = Some (t, st') ∧
            fd_digest t = d ∧
            ∀ c, In c (map cd_command (fd_next t)) ↔
                 In c (log self) ∧ ∃ f, In f (in_files c) ∧ md5 f = d).
Proof.
  intros d. split.
  - destruct (fan_total w self false file None digest st) as (t & st' & E).
    exists t, st'. split; [exact E|].
    split; [exact (proj1 (proj2 (fan_root w self _ _ _ _ _ _ _ _ E)))|].
    intros c. rewrite (fan_commands w self _ _ _ _ _ _ _ E), visited_None.
    rewrite filter_In, list_entries_In. unfold matches. rewrite digest_here_spec. done.
  - destruct (fan_total w self true file None digest st) as (t & st' & E).
    exists t, st'. split; [exact E|].
    split; [exact (proj1 (proj2 (fan_root w self _ _ _ _ _ _ _ _ E)))|].
    intros c. rewrite (fan_commands w self _ _ _ _ _ _ _ E), visited_None.
    rewrite filter_In, list_entries_In. unfold matches. rewrite digest_here_spec. done.
Qed.

(** The digest [dd] was produced at [p1] and at [p2]; the path [p2] was
    also produced with the digest [ee].  The query at [(p2, dd)] attaches
    both producers of [dd] and not the producer of [ee]. *)
Example copy_fanin :
  (fun t => map cd_command (fd_next (fst t)))
    <$> fanin Ex.world Ex.store_copy "/w/p2" None (Some "dd") Ex.st0
  = Some [Ex.copy_p2; Ex.make_p1].
Proof. vm_compute. reflexivity. Qed.

(** C5. A [fanin] call whose anchor is not yet in the set returns the
    anchor with exactly one command child per entry that has an output
    record with the anchor's digest, in the order of
    [list_entries(reverse=True)], the most recent entry first. *)
Theorem C5_fanin_children_order (w : World) (self : CommandInspector) (file : Path)
        (already_covered : option nat) (digest : option string) (st : State) :
  visited w file already_covered digest st = false →
  ∃ t st', fanin w self file already_covered digest st = Some (t, st') ∧
           map cd_command (fd_next t)
           = List.filter (fun c => digest_here (effective_digest w digest file) (out_files c))
                         (rev (log self)) ∧
           Forall (fun cn => cd_out cn = false) (fd_next t).
Proof.
  intros Hv.
  destruct (fan_total w self false file already_covered digest st) as (t & st' & E).
  exists t, st'. split; [exact E|]. split.
  - by rewrite (fan_commands w self _ _ _ _ _ _ _ E), Hv.
  - apply fan_children in E. rewrite Hv in E.
    clear -E. induction E as [|c cn cs cns (_ & Ho & _) _ IH]; constructor; done.
Qed.

Lemma C5_fanin_children_order_witness :
  ∃ t st', fanin Ex.world Ex.store_copy "/w/p2" None (Some "dd") Ex.st0 = Some (t, st') ∧
           map cd_command (fd_next t)
           = List.filter (fun c => digest_here
                                     (effective_digest Ex.world (Some "dd") "/w/p2")
                                     (out_files c))
                         (rev (log Ex.store_copy)) ∧
           Forall (fun cn => cd_out cn = false) (fd_next t).
Proof.
  apply (C5_fanin_children_order Ex.world Ex.store_copy "/w/p2" None (Some "dd") Ex.st0).
  vm_compute. reflexivity.
Defined.

Lemma traverse_fan w self out :
  traverse w self out = fan w self (budget self) out.
Proof. by destruct out. Qed.

Lemma Forall2_In_l {A B} (P : A -> B -> Prop) l k a :
  Forall2 P l k → In a l → ∃ b, In b k ∧ P a b.
Proof.
  induction 1 as [|x y l k Hxy _ IH]; intros Hin; [done|].
  destruct Hin as [<-|Hin].
  - exists y. split; [by left|done].
  - destruct (IH Hin) as (b & Hb & Pb). exists b. split; [by right|done].
Qed.

Lemma effective_digest_given w d p :
  str_truthy d = true → effective_digest w (Some d) p = d.
Proof. unfold effective_digest. by intros ->. Qed.

Lemma str_truthy_false d : str_truthy d = false ↔ d = "".
Proof. destruct d; split; intros H; done. Qed.

(** ** Direction symmetry (C3) *)

(** An entry [c] with a record [fm] on the matched side and a record [fn']
    on the other side: a query whose anchor digest is the digest of [fm]
    returns a tree with a command child for [c] and, beneath it, the file
    node of [fn'], built with the digest the recursive call works with. *)
Lemma fan_symmetry w self out c fm fn' file digest st :
  In c (log self) → In fm (match_files out c) → In fn' (next_files out c) →
  effective_digest w digest file = md5 fm →
  ∃ t st' cn fn,
    fan w self (budget self) out file None digest st = Some (t, st') ∧
    In cn (fd_next t) ∧ cd_command cn = c ∧ cd_out cn = out ∧ In fn (cd_next cn) ∧
    fd_file fn = work_path w self (path fn') ∧
    fd_digest fn = effective_digest w (Some (md5 fn')) (path fn').
Proof.
  intros Hc Hm Hn Hd.
  destruct (fan_total w self out file None digest st) as (t & st' & E).
  pose proof (fan_children w self _ _ _ _ _ _ _ E) as Hch.
  rewrite visited_None in Hch.
  assert (Hin : In c (List.filter (matches out (effective_digest w digest file))
                                  (list_entries (log self) true))).
  { apply filter_In. split; [by apply list_entries_In|].
    unfold matches. apply digest_here_spec. exists fm. by rewrite Hd. }
  destruct (Forall2_In_l _ _ _ _ Hch Hin) as (cn & Hcn & Hc1 & Hco & Hfs).
  destruct (Forall2_In_l _ _ _ _ Hfs Hn) as (fn & Hfn & Hf1 & Hf2 & _).
  exists t, st', cn, fn. repeat (split; [done|]). exact Hf2.
Qed.

Lemma str_truthy_nonempty d : d ≠ "" → str_truthy d = true.
Proof. by destruct d. Qed.

(** C3, in the form that holds of the code.  Let the store hold an entry
    [c] with an input record of non-empty digest [Da] and an output record
    of non-empty digest [Db].  A [fanout] query anchored at [Da], whatever
    the path of the anchor, returns a tree in which [c] is the command of a
    child and the file node of the output record, with digest [Db], is
    beneath it; a [fanin] query anchored at [Db] returns a tree in which
    [c] is the command of a child and the file node of the input record,
    with digest [Da], is beneath it. *)
Theorem C3_direction_symmetry (w : World) (self : CommandInspector)
        (c : CommandLog) (fa fb : FileLog) (file : Path) (st : State) :
  In c (log self) → In fa (in_files c) → In fb (out_files c) →
  md5 fa ≠ "" → md5 fb ≠ "" →
  (∃ t st' cn fn,
     fanout w self file None (Some (md5 fa)) st = Some (t, st') ∧
     In cn (fd_next t) ∧ cd_command cn = c ∧ cd_out cn = true ∧ In fn (cd_next cn) ∧
     fd_file fn = work_path w self (path fb) ∧ fd_digest fn = md5 fb) ∧
  (∃ t st' cn fn,
     fanin w self file None (Some (md5 fb)) st = Some (t, st') ∧
     In cn (fd_next t) ∧ cd_command cn = c ∧ cd_out cn = false ∧ In fn (cd_next cn) ∧
     fd_file fn = work_path w self (path fa) ∧ fd_digest fn = md5 fa).
Proof.
  intros Hc Ha Hb Hna Hnb.
  apply str_truthy_nonempty in Hna, Hnb. split.
  - destruct (fan_symmetry w self true c fa fb file (Some (md5 fa)) st Hc Ha Hb)
      as (t & st' & cn & fn & H); [by apply effective_digest_given|].
    exists t, st', cn, fn. by rewrite effective_digest_given in H.
  - destruct (fan_symmetry w self false c fb fa file (Some (md5 fb)) st Hc Hb Ha)
      as (t & st' & cn & fn & H); [by apply effective_digest_given|].
    exists t, st', cn, fn. by rewrite effective_digest_given in H.
Qed.

Lemma C3_direction_symmetry_witness :
  (∃ t st' cn fn,
     fanout Ex.world Ex.store_cat "/w/a.txt" None (Some "d1") Ex.st0 = Some (t, st') ∧
     In cn (fd_next t) ∧ cd_command cn = Ex.cat ∧ cd_out cn = true ∧ In fn (cd_next cn) ∧
     fd_file fn = "/dev/stdout" ∧ fd_digest fn = "d2") ∧
  (∃ t st' cn fn,
     fanin Ex.world Ex.store_cat "/w/a.txt" None (Some "d2") Ex.st0 = Some (t, st') ∧
     In cn (fd_next t) ∧ cd_command cn = Ex.cat ∧ cd_out cn = false ∧ In fn (cd_next cn) ∧
     fd_file fn = "/w/a.txt" ∧ fd_digest fn = "d1").
Proof.
  apply (C3_direction_symmetry Ex.world Ex.store_cat Ex.cat
           (mkFileLog "/w/a.txt" "d1") (mkFileLog "/dev/stdout" "d2")
           "/w/a.txt" Ex.st0).
  - simpl. left. reflexivity.
  - simpl. left. reflexivity.
  - simpl. left. reflexivity.
  - simpl. discriminate.
  - simpl. discriminate.
Defined.

(** The output record of [unpack] carries the empty digest and its path
    is a regular file by now: beneath [unpack] the [fanout] tree has the
    file node of the current content, and no node with the digest of the
    record. *)
Lemma C3_counterexample :
  In Ex.unpack (log Ex.store_unpack) ∧
  In (mkFileLog "/w/a.zip" "da") (in_files Ex.unpack) ∧
  In (mkFileLog "/w/b" "") (out_files Ex.unpack) ∧
  ∃ t st',
    fanout Ex.world Ex.store_unpack "/w/a.zip" None (Some "da") Ex.st0 = Some (t, st') ∧
    ¬ ∃ cn fn, In cn (fd_next t) ∧ In fn (cd_next cn) ∧ fd_digest fn = "".
Proof.
  split; [by left|]. split; [by left|]. split; [by left|].
  destruct (fanout Ex.world Ex.store_unpack "/w/a.zip" None (Some "da") Ex.st0)
    as [[t st']|] eqn:E; [|by vm_compute in E].
  exists t, st'. split; [done|].
  assert (Ht : t = mkFileDependency "/w/a.zip" "da" true
                     [mkCommandDependency Ex.unpack true
                        [mkFileDependency "/w/b" "hx" true []]]).
  { apply (f_equal (fmap fst)) in E. vm_compute in E. by injection E as <-. }
  subst t. intros (cn & fn & [<-|[]] & [<-|[]] & Hd). discriminate Hd.
Qed.

(** ** The cycle cut (C4) *)

Lemma visited_shared w file ac digest st :
  visited w file ac digest st = true →
  covered_state ac (traced digest file st) = traced digest file st.
Proof.
  unfold visited. intros H. apply bool_decide_eq_true in H. revert H.
  unfold covered_state, covered_loc.
  destruct ac as [l|]; [destruct (decide _)|]; [|done|];
    rewrite (set_at_fresh (traced digest file st)); set_solver.
Qed.

(** C4. Every call computes the key of its anchor from the path and the
    digest: the path, a colon and the digest the call works with.  When
    the key is in the set the call works on, the call returns the anchor
    without children; a budget of one call is enough for that, so there is
    no recursion, and no set object changes.  Otherwise the key is added
    to the set, the store is scanned in the state that holds the key, the
    recursive calls being calls of the same function on the same set
    object, and the key is in the set when the call returns. *)
Theorem C4_cycle_cut (w : World) (self : CommandInspector) (out : bool)
        (file : Path) (already_covered : option nat) (digest : option string)
        (st : State) :
  let d := effective_digest w digest file in
  let key := file +:+ ":" +:+ d in
  let st1 := traced digest file st in
  let l := covered_loc already_covered st1 in
  let st2 := covered_state already_covered st1 in
  traverse w self out file already_covered digest st =
    (if visited w file already_covered digest st
     then Some (leaf w self out file digest, st2)
     else match scan (fun f => traverse w self out (path f) (Some l) (Some (md5 f)))
                     out d (list_entries (log self) true) (added l key st2) with
          | Some (next, st') =>
              Some (mkFileDependency (work_path w self file) d out next, st')
          | None => None
          end) ∧
  (if visited w file already_covered digest st
   then fan w self 1 out file already_covered digest st
        = Some (leaf w self out file digest, st2) ∧
        sets st2 = sets st
   else (key ∉ set_at st2 l) ∧ (key ∈ set_at (added l key st2) l) ∧
        ∃ t st', traverse w self out file already_covered digest st = Some (t, st') ∧
                 key ∈ set_at st' l).
Proof.
  intros d key st1 l st2.
  assert (Hkey : key = file_check file d) by reflexivity.
  rewrite traverse_fan. split.
  - rewrite Hkey. apply fan_equation.
  - destruct (visited w file already_covered digest st) eqn:Hv.
    + split.
      * rewrite fan_unfold. cbv zeta. unfold visited in Hv. by rewrite Hv.
      * subst st2 st1. rewrite (visited_shared _ _ _ _ _ Hv). apply sets_traced.
    + rewrite Hkey.
      split; [by apply bool_decide_eq_false in Hv|]. split.
      * subst l st2. rewrite set_at_added by apply covered_loc_valid. set_solver.
      * destruct (fan_total w self out file already_covered digest st) as (t & st' & E).
        exists t, st'. split; [done|]. by apply fan_inv in E as [_ E].
Qed.

(** A store whose single entry reads and writes the same file version:
    the inner occurrence of the anchor is cut. *)
Example self_cycle_fanout :
  let touch := mkCommandLog ["touch"] 0 [] [] []
                            [mkFileLog "/w/a" "da"] [mkFileLog "/w/a" "da"] in
  fst <$> fanout Ex.world (mkCommandInspector [touch] "/w") "/w/a" None (Some "da") Ex.st0
  = Some (mkFileDependency "/w/a" "da" true
            [mkCommandDependency touch true
               [mkFileDependency "/w/a" "da" true []]]).
Proof. vm_compute. reflexivity. Qed.

(** ** Files that cannot be hashed (C6) *)

Lemma read_loop_all (fuel : nat) :
  ∀ (acc rest : bytes), length rest < fuel → read_loop fuel acc rest = acc ++ rest.
Proof.
  induction fuel as [|fuel IH]; intros acc rest Hlen; [lia|].
  cbn [read_loop].
  destruct (take 2048 rest) as [|b chunk] eqn:E.
  - destruct rest as [|x rest]; [by rewrite app_nil_r|discriminate E].
  - rewrite IH.
    + rewrite <- E, <- app_assoc. by rewrite take_drop.
    + destruct rest as [|x rest]; [discriminate E|].
      change (drop 2048 (x :: rest)) with (drop 2047 rest).
      rewrite length_drop. simpl in Hlen. lia.
Qed.

Lemma hash_of_regular w file content :
  read_bytes w file = Some content → hash_of w file = hexdigest w content.
Proof.
  intros E. unfold hash_of. rewrite E. by rewrite read_loop_all by lia.
Qed.

(** C6, in the form that holds of the code.  The hash of a path that is not a regular file is the
    empty string, not an error; a query anchored at such a file, without a
    digest, returns the anchor with the empty digest and without children
    provided that no entry of the store has, on the side the query
    matches on, a record that carries the empty digest. *)
Theorem C6_unhashable_leaf (w : World) (self : CommandInspector) (out : bool)
        (file : Path) (already_covered : option nat) (digest : option string)
        (st : State) :
  read_bytes w file = None →
  digest_given digest = false →
  (∀ c f, In c (log self) → In f (match_files out c) → md5 f ≠ "") →
  hash_of w file = "" ∧
  ∃ st', traverse w self out file already_covered digest st
         = Some (mkFileDependency (work_path w self file) "" out [], st').
Proof.
  intros Hr Hg Hne.
  assert (Hh : hash_of w file = "") by (unfold hash_of; by rewrite Hr).
  assert (Hd : effective_digest w digest file = "").
  { unfold effective_digest. unfold digest_given in Hg.
    destruct digest as [d|]; [by rewrite Hg|done]. }
  split; [done|]. rewrite traverse_fan.
  destruct (fan_total w self out file already_covered digest st) as (t & st' & E).
  exists st'. rewrite E. f_equal. f_equal.
  pose proof (fan_root w self _ _ _ _ _ _ _ _ E) as (Hf & Hdg & Ho).
  pose proof (fan_commands w self _ _ _ _ _ _ _ E) as Hc.
  assert (Hnil : fd_next t = []).
  { apply (map_eq_nil cd_command). rewrite Hc.
    destruct (visited w file already_covered digest st); [done|].
    rewrite Hd.
    destruct (List.filter (matches out "") (list_entries (log self) true))
      as [|c cs] eqn:Ef; [done|exfalso].
    assert (Hin : In c (List.filter (matches out "") (list_entries (log self) true)))
      by (rewrite Ef; by left).
    apply filter_In in Hin as [Hin Hm].
    apply list_entries_In in Hin. unfold matches in Hm.
    apply digest_here_spec in Hm as (f & Hf' & Hm). by apply (Hne c f). }
  destruct t as [f' d' o' n']. simpl in Hf, Hdg, Ho, Hnil. subst. by rewrite Hd.
Qed.

Lemma C6_unhashable_leaf_witness :
  hash_of Ex.world "/w/missing" = "" ∧
  ∃ st', traverse Ex.world Ex.store_cat false "/w/missing" None None Ex.st0
         = Some (mkFileDependency (work_path Ex.world Ex.store_cat "/w/missing") "" false [],
                 st').
Proof.
  apply (C6_unhashable_leaf Ex.world Ex.store_cat false "/w/missing" None None Ex.st0).
  - reflexivity.
  - reflexivity.
  - intros c f [<-|[]] [<-|[]]. simpl. discriminate.
Defined.

(** The output record of [unpack] carries the empty digest: a [fanin]
    query anchored at a missing file is given [unpack] as a child. *)
Lemma C6_counterexample :
  read_bytes Ex.world "/w/missing" = None ∧
  (fun r => map cd_command (fd_next (fst r)))
    <$> fanin Ex.world Ex.store_unpack "/w/missing" None None Ex.st0
  = Some [Ex.unpack].
Proof. split; [reflexivity|]. vm_compute. reflexivity. Qed.

(** ** Hashing during a traversal (C7) *)


Lemma Forall2_Forall_r {A B} (P : A -> B -> Prop) (Q : B -> Prop) l k :
  Forall2 P l k → (∀ a b, In a l → P a b → Q b) → Forall Q k.
Proof.
  induction 1 as [|x y l k Hxy _ IH]; intros HPQ; constructor.
  - apply (HPQ x); [by left|done].
  - apply IH. intros a b Ha. apply HPQ. by right.
Qed.

Lemma hashed_traced digest file st :
  hashed (traced digest file st)
  = hashed st ++ (if digest_given digest then [] else [file]).
Proof. unfold traced. destruct (digest_given digest); [by rewrite app_nil_r|done]. Qed.

Lemma hashed_covered_state ac st : hashed (covered_state ac st) = hashed st.
Proof. unfold covered_state. destruct ac as [l|]; [destruct (decide _)|]; done. Qed.




(** ** One set per traversal (C8) *)

Lemma covered_Some_nonempty l st digest file :
  set_at st l ≠ ∅ →
  covered_loc (Some l) (traced digest file st) = l ∧
  covered_state (Some l) (traced digest file st) = traced digest file st.
Proof.
  intros Hne. unfold covered_loc, covered_state. rewrite set_at_traced.
  by destruct (decide _).
Qed.

(** C8, in the form that holds of the code.  A query allocates one set
    object and every call of the traversal works on it: the file nodes of
    the returned tree that were given children have pairwise distinct
    keys, all of them in that set, so a pair met again is a node without
    children.  This holds from any state, the one without any set object
    included.  A traversal that is given a non-empty set of the caller
    works on that very object: no other set object changes, the keys of
    the nodes that were given children are distinct and new in the set,
    the key of the anchor is in the set afterwards, and a second call with
    the same set, anchored at any pair whose key (path, colon, digest) is
    in the set by then, returns that anchor without children. *)
Theorem C8_shared_visited_set (w : World) (self : CommandInspector) (out : bool)
        (file : Path) (digest : option string) (st : State) :
  (∃ t V st',
      traverse w self out file None digest st = Some (t, st') ∧
      sets st' = sets st ++ [V] ∧
      NoDup (expanded_keys file t) ∧
      ∀ k, In k (expanded_keys file t) → k ∈ V) ∧
  (∀ l : nat, set_at st l ≠ ∅ →
    ∃ t st',
      traverse w self out file (Some l) digest st = Some (t, st') ∧
      extends l st st' ∧
      NoDup (expanded_keys file t) ∧
      (∀ k, In k (expanded_keys file t) → (k ∉ set_at st l) ∧ (k ∈ set_at st' l)) ∧
      (file +:+ ":" +:+ effective_digest w digest file) ∈ set_at st' l ∧
      ∀ (out2 : bool) (file2 : Path) (digest2 : option string),
        (file2 +:+ ":" +:+ effective_digest w digest2 file2) ∈ set_at st' l →
        traverse w self out2 file2 (Some l) digest2 st'
        = Some (leaf w self out2 file2 digest2, traced digest2 file2 st')).
Proof.
  split.
  - rewrite traverse_fan.
    destruct (fan_total w self out file None digest st) as (t & st' & E).
    pose proof (fan_inv w self _ _ _ _ _ _ _ _ E) as [(Hext & _ & Hnd & Hk) _].
    cbn [covered_loc covered_state] in Hext, Hk.
    rewrite sets_traced in Hext, Hk.
    destruct Hext as [Hl (V & EV & _)]. cbn [sets] in EV, Hl.
    exists t, V, st'. split; [done|].
    assert (Hs : sets st' = sets st ++ [V]).
    { rewrite EV. rewrite insert_app_r_alt by lia. by rewrite Nat.sub_diag. }
    split; [done|]. split; [done|].
    intros k Hin. destruct (Hk k Hin) as [_ Hin'].
    unfold set_at in Hin'. rewrite Hs in Hin'.
    rewrite lookup_app_r in Hin' by lia. by rewrite Nat.sub_diag in Hin'.
  - intros l Hne. rewrite traverse_fan.
    destruct (fan_total w self out file (Some l) digest st) as (t & st' & E).
    pose proof (fan_inv w self _ _ _ _ _ _ _ _ E) as [(Hext & _ & Hnd & Hk) Hkey].
    cbv zeta in Hext, Hk, Hkey.
    destruct (covered_Some_nonempty l st digest file Hne) as [El Es].
    rewrite El in Hext, Hk, Hkey. rewrite Es in Hext, Hk.
    pose proof (set_at_valid _ _ Hne) as Hl.
    assert (Hext' : extends l st st').
    { eapply extends_trans; [by apply extends_traced|exact Hext]. }
    exists t, st'. split; [done|]. split; [done|]. split; [done|]. split.
    + intros k Hin. destruct (Hk k Hin) as [Ha Hb]. by rewrite set_at_traced in Ha.
    + split; [exact Hkey|].
      intros out2 file2 digest2 Hin. rewrite traverse_fan, fan_equation. cbv zeta.
      assert (Hne' : set_at st' l ≠ ∅) by (by eapply extends_nonempty).
      destruct (covered_Some_nonempty l st' digest2 file2 Hne') as [El' Es'].
      assert (Hv : visited w file2 (Some l) digest2 st' = true).
      { unfold visited. apply bool_decide_eq_true.
        rewrite El', Es', set_at_traced. exact Hin. }
      by rewrite Hv, Es'.
Qed.

Lemma C8_shared_visited_set_witness :
  (∃ t V st',
      traverse Ex.world Ex2.store_diamond false "/w/r" None (Some "dr") Ex.st0
      = Some (t, st') ∧
      sets st' = sets Ex.st0 ++ [V] ∧
      NoDup (expanded_keys "/w/r" t) ∧
      ∀ k, In k (expanded_keys "/w/r" t) → k ∈ V) ∧
  (∃ t st',
      traverse Ex.world Ex2.store_diamond false "/w/r" (Some 0) (Some "dr")
               Ex2.st_seeded_set = Some (t, st') ∧
      extends 0 Ex2.st_seeded_set st' ∧
      NoDup (expanded_keys "/w/r" t) ∧
      (∀ k, In k (expanded_keys "/w/r" t) →
            (k ∉ set_at Ex2.st_seeded_set 0) ∧ (k ∈ set_at st' 0)) ∧
      ("/w/r" +:+ ":" +:+ effective_digest Ex.world (Some "dr") "/w/r") ∈ set_at st' 0 ∧
      ∀ (out2 : bool) (file2 : Path) (digest2 : option string),
        (file2 +:+ ":" +:+ effective_digest Ex.world digest2 file2) ∈ set_at st' 0 →
        traverse Ex.world Ex2.store_diamond out2 file2 (Some 0) digest2 st'
        = Some (leaf Ex.world Ex2.store_diamond out2 file2 digest2,
                traced digest2 file2 st')).
Proof.
  split.
  - apply (proj1 (C8_shared_visited_set Ex.world Ex2.store_diamond false "/w/r"
                    (Some "dr") Ex.st0)).
  - apply (proj2 (C8_shared_visited_set Ex.world Ex2.store_diamond false "/w/r"
                    (Some "dr") Ex2.st_seeded_set) 0).
    apply (bool_decide_eq_false_1 (set_at Ex2.st_seeded_set 0 = ∅)).
    vm_compute. reflexivity.
Defined.

(** In the diamond, [x] is reached below [y] and below [z]: it is given
    its producer the first time and is a leaf the second time. *)
Example diamond_fanin :
  fst <$> fanin Ex.world Ex2.store_diamond "/w/r" None (Some "dr") Ex.st0 =
  Some (mkFileDependency "/w/r" "dr" false
          [mkCommandDependency Ex2.link false
             [mkFileDependency "/w/y" "dy" false
                [mkCommandDependency Ex2.cc_y false
                   [mkFileDependency "/w/x" "dx" false
                      [mkCommandDependency Ex2.gen_x false
                         [mkFileDependency "/w/s" "ds" false []]]]];
              mkFileDependency "/w/z" "dz" false
                [mkCommandDependency Ex2.cc_z false
                   [mkFileDependency "/w/x" "dx" false []]]]]).
Proof. vm_compute. reflexivity. Qed.

(** The caller passes an empty set twice: [already_covered or set([])]
    replaces it by a fresh set each time, the set of the caller stays
    empty, and the second call, anchored at the pair the first call has
    visited, is given its children again. *)
Lemma C8_counterexample :
  ∃ t1 st1 t2 st2,
    fanin Ex.world Ex.store_cat "/dev/stdout" (Some 0) (Some "d2") Ex2.st_empty_set
    = Some (t1, st1) ∧
    fanin Ex.world Ex.store_cat "/dev/stdout" (Some 0) (Some "d2") st1 = Some (t2, st2) ∧
    set_at st1 0 = ∅ ∧
    map cd_command (fd_next t2) = [Ex.cat].
Proof.
  destruct (fanin Ex.world Ex.store_cat "/dev/stdout" (Some 0) (Some "d2") Ex2.st_empty_set)
    as [[t1 st1]|] eqn:E1; [|by vm_compute in E1].
  vm_compute in E1. injection E1 as <- <-.
  eexists _, _, _, _. split; [reflexivity|].
  split; [vm_compute; reflexivity|]. split; vm_compute; reflexivity.
Qed.

(** ** Rendering (C10) *)

(** Let [simpl] compute string concatenation on constructors. *)
Local Arguments append !_ _ / : simpl nomatch.

Lemma str_app_assoc (a b c : string) : (a +:+ b) +:+ c = a +:+ (b +:+ c).
Proof. induction a as [|x a IH]; simpl; [done|]. by rewrite IH. Qed.

Lemma str_app_nil_r (a : string) : a +:+ "" = a.
Proof. induction a as [|x a IH]; simpl; [done|]. by rewrite IH. Qed.

(** [p + p.join(xs)] puts [p] in front of every element. *)
Lemma attach_concat p xs :
  attach p xs = String.concat "" (map (fun x => p +:+ x) xs).
Proof.
  destruct xs as [|x xs]; [done|]. unfold attach. revert x.
  induction xs as [|y xs IH]; intros x; [done|].
  change (String.concat p (x :: y :: xs)) with (x +:+ p +:+ String.concat p (y :: xs)).
  change (String.concat "" (map (fun x => p +:+ x) (x :: y :: xs)))
    with ((p +:+ x) +:+ "" +:+ String.concat "" (map (fun x => p +:+ x) (y :: xs))).
  rewrite <- IH. by rewrite str_app_assoc.
Qed.

Lemma replace_char_app old new a b :
  replace_char old new (a +:+ b) = replace_char old new a +:+ replace_char old new b.
Proof.
  induction a as [|x a IH]; simpl; [done|].
  rewrite IH. destruct (Ascii.eqb x old); [by rewrite str_app_assoc|done].
Qed.

Lemma has_char_app c a b : has_char c (a +:+ b) = has_char c a || has_char c b.
Proof.
  induction a as [|x a IH]; simpl; [done|]. rewrite IH. by rewrite orb_assoc.
Qed.

Lemma has_char_substring c n : ∀ s, has_char c s = false → has_char c (substring 0 n s) = false.
Proof.
  induction n as [|n IH]; intros [|x s] H; simpl in *; try done.
  apply orb_false_iff in H as [-> H]. simpl. by apply IH.
Qed.

Lemma first_line_app a b :
  has_char nl_char a = false → first_line (a +:+ b) = a +:+ first_line b.
Proof.
  induction a as [|x a IH]; simpl; [done|]. intros H.
  apply orb_false_iff in H as [-> H]. by rewrite IH.
Qed.

Lemma first_line_attach out xs : first_line (attach (file_glyph out) xs) = "".
Proof. destruct xs; [done|]. by destruct out. Qed.

Lemma has_char_file_string file digest :
  has_char nl_char file = false → has_char nl_char digest = false →
  has_char nl_char (file_string file digest) = false.
Proof.
  intros Hf Hd. unfold file_string.
  destruct (str_truthy digest); rewrite !has_char_app, Hf; [|reflexivity].
  rewrite (has_char_substring _ _ _ Hd). reflexivity.
Qed.

(** C10. The text of a file node is a function of the node.  It starts
    with the label: the path, then a space and the first 16 characters of
    the digest, or the path and the marker [/] when the digest is empty;
    the label is the first line of the text when path and digest hold no
    newline.  The label is followed by the children in order, each
    rendered recursively, every one of its lines moved right by the margin
    of four spaces and the whole put after the connector of the node;
    command nodes are rendered in the same way after their re-quoted
    argument vector.  The connectors of fan-out nodes contain [|], those
    of fan-in nodes contain [^], and the two differ. *)
Theorem C10_rendering (quote_args : list string -> list string)
        (file : Path) (digest : string) (out : bool) (next : list CommandDependency) :
  let text := FileDependency_str quote_args (mkFileDependency file digest out next) in
  let label := match digest with
               | "" => file +:+ "/"
               | _ => file +:+ " " +:+ substring 0 16 digest
               end in
  text = label
         +:+ String.concat ""
               (map (fun cn => file_glyph out
                               +:+ indent (CommandDependency_str quote_args cn)) next) ∧
  (has_char nl_char file = false → has_char nl_char digest = false →
   first_line text = label) ∧
  (∀ cmd o ts,
      CommandDependency_str quote_args (mkCommandDependency cmd o ts)
      = String.concat " " (quote_args (command cmd))
        +:+ String.concat ""
              (map (fun t => command_glyph o
                             +:+ indent (FileDependency_str quote_args t)) ts)) ∧
  (∀ a b, indent (a +:+ b) = indent a +:+ indent b) ∧
  indent nl = nl +:+ "    " ∧
  (∀ s, has_char nl_char s = false → indent s = s) ∧
  file_glyph true = nl +:+ "|-- " ∧ file_glyph false = nl +:+ "^-- " ∧
  command_glyph true = nl +:+ "|-->" ∧ command_glyph false = nl +:+ "^---" ∧
  (∀ o, has_char "|" (file_glyph o) = o ∧ has_char "|" (command_glyph o) = o ∧
        has_char "^" (file_glyph o) = negb o ∧ has_char "^" (command_glyph o) = negb o).
Proof.
  intros text label.
  assert (Hlabel : label = file_string file digest).
  { subst label. unfold file_string. by destruct digest. }
  split; [|split; [|split; [|split; [|split; [|split]]]]].
  - rewrite Hlabel. subst text. cbn [FileDependency_str].
    by rewrite attach_concat, map_map.
  - intros Hf Hd. rewrite Hlabel. subst text. cbn [FileDependency_str].
    rewrite first_line_app by (by apply has_char_file_string).
    by rewrite first_line_attach, str_app_nil_r.
  - intros cmd o ts. cbn [CommandDependency_str]. by rewrite attach_concat, map_map.
  - intros a b. apply replace_char_app.
  - reflexivity.
  - intros s. unfold indent.
    induction s as [|x s IH]; cbn [replace_char has_char]; [done|].
    intros H. apply orb_false_iff in H as [-> H]. by rewrite IH.
  - repeat (split; [reflexivity|]). intros []; repeat split; reflexivity.
Qed.

(** The tree of the scenario [cat a.txt], rendered. *)
Example render_cat :
  FileDependency_str (fun l => l)
    (mkFileDependency "/dev/stdout" "0123456789abcdef0123456789abcdef" false
       [mkCommandDependency Ex.cat false
          [mkFileDependency "a.txt" "" false []]])
  = "/dev/stdout 0123456789abcdef" +:+ nl +:+
    "^-- cat a.txt" +:+ nl +:+
    "    ^---a.txt/".
Proof. vm_compute. reflexivity. Qed.

(** ** The records of the standard streams (C9) *)

Section Runner.
Import Frontend FrontendSpec.

Lemma stdin_bytes_of selects : stdin_bytes selects = stdin_of (handled selects).
Proof. reflexivity. Qed.

Lemma produced_produced_of t selects : produced t selects = produced_of t (handled selects).
Proof. reflexivity. Qed.

Lemma tracks_opt_update s acc data :
  tracks_opt (Some s) acc → tracks_opt (Some (update s data)) (acc ++ data).
Proof.
  intros [Hm Hl]. split; simpl; [by rewrite Hm|].
  rewrite length_app. by rewrite Hl.
Qed.

Lemma tracks_opt_deliver buffer s acc data :
  tracks_opt (Some s) acc → tracks_opt (Some (deliver buffer s data)) (acc ++ data).
Proof.
  intros H. apply (tracks_opt_update s acc data) in H. destruct H as [Hm Hl].
  unfold deliver. destruct buffer; split; done.
Qed.

(** One ready stream: the streams keep track of what they are given,
    and the socket is closed by the end of its stream only. *)
Lemma handle_tracks buffer sel s s' a o e :
  handle buffer sel s = Done s' →
  tracks s a o e →
  tracks s' (a ++ stdin_of [sel]) (o ++ produced_of 1 [sel]) (e ++ produced_of 2 [sel]) ∧
  c_socket_open s' = c_socket_open s && negb (is_eof sel).
Proof.
  intros H (Ha & Hn & Ho & He).
  destruct sel as [d|t d|]; cbn [handle] in H; [| |done].
  - destruct (stdin_active s); [|done]. cbn [negb] in H.
    destruct d as [|x d].
    + injection H as <-. cbn. rewrite !app_nil_r, andb_true_r. done.
    + destruct (stdin_s s) as [i|] eqn:Ei; [|done]. injection H as <-.
      cbn [stdin_of produced_of flat_map is_eof negb]. rewrite !app_nil_r, andb_true_r.
      split; [|done]. split; [|split; [done|split; done]].
      cbn [stdin_s]. by apply tracks_opt_update.
  - destruct d as [|x d].
    + injection H as <-. cbn [stdin_of produced_of flat_map is_eof negb].
      rewrite andb_false_r.
      assert (Hnil : ∀ t', (if (t =? t')%Z then @nil Byte.byte else []) = [])
        by (intros t'; by destruct (t =? t')%Z).
      rewrite !Hnil, !app_nil_r. done.
    + cbn [stdin_of produced_of flat_map is_eof negb]. rewrite !app_nil_r, andb_true_r.
      destruct (t =? 1)%Z eqn:E1.
      { assert (E2 : (t =? 2)%Z = false) by lia. rewrite E2, app_nil_r.
        destruct (stdout_s s) as [os|] eqn:Eo.
        - injection H as <-. split; [|done]. split; [done|]. split; [done|].
          split; [|done]. cbn [stdout_s]. by apply tracks_opt_deliver.
        - injection H as <-. split; [|done]. split; [done|]. split; [done|].
          split; [|done]. by rewrite Eo. }
      rewrite app_nil_r. destruct (t =? 2)%Z eqn:E2.
      * injection H as <-. split; [|done]. split; [done|]. split; [done|].
        split; [done|]. cbn [stderr_s]. by apply tracks_opt_deliver.
      * injection H as <-. rewrite app_nil_r. done.
Qed.

Lemma handle_all_tracks buffer sels :
  ∀ s s' a o e,
    handle_all buffer sels s = Done s' →
    tracks s a o e →
    tracks s' (a ++ stdin_of sels) (o ++ produced_of 1 sels) (e ++ produced_of 2 sels) ∧
    c_socket_open s' = c_socket_open s && negb (existsb is_eof sels).
Proof.
  induction sels as [|sel sels IH]; intros s s' a o e H Ht.
  - injection H as <-. cbn. rewrite !app_nil_r, andb_true_r. done.
  - cbn [handle_all] in H. destruct (handle buffer sel s) as [s1| |] eqn:E1; [|done|done].
    destruct (handle_tracks _ _ _ _ _ _ _ E1 Ht) as [Ht1 Hc1].
    destruct (IH _ _ _ _ _ H Ht1) as [Ht2 Hc2].
    split.
    + unfold stdin_of, produced_of in *. cbn [flat_map] in *.
      rewrite !app_nil_r in Ht2. by rewrite !app_assoc.
    + rewrite Hc2, Hc1. cbn [existsb]. rewrite negb_orb. by rewrite andb_assoc.
Qed.

Lemma io_loop_closed buffer selects s :
  c_socket_open s = false → io_loop buffer selects s = Done s.
Proof. intros H. destruct selects; cbn [io_loop]; by rewrite H. Qed.

(** The loop: when it ends, every stream has been given exactly the
    bytes handled for it. *)
Lemma io_loop_tracks buffer selects :
  ∀ s s' a o e,
    io_loop buffer selects s = Done s' →
    c_socket_open s = true →
    tracks s a o e →
    tracks s' (a ++ stdin_of (handled selects)) (o ++ produced_of 1 (handled selects))
           (e ++ produced_of 2 (handled selects)).
Proof.
  induction selects as [|sel selects IH]; intros s s' a o e H Hopen Ht.
  - cbn [io_loop] in H. by rewrite Hopen in H.
  - cbn [io_loop] in H. rewrite Hopen in H. cbn [negb] in H.
    destruct sel as [sels|].
    + destruct (handle_all buffer sels s) as [s1| |] eqn:E1; [|done|done].
      destruct (handle_all_tracks _ _ _ _ _ _ _ E1 Ht) as [Ht1 Hc1].
      rewrite Hopen in Hc1. cbn [andb handled] in *.
      destruct (existsb is_eof sels).
      * rewrite io_loop_closed in H by done. by injection H as <-.
      * specialize (IH _ _ _ _ _ H Hc1 Ht1).
        unfold stdin_of, produced_of in *. rewrite !flat_map_app.
        by rewrite !app_assoc.
    + destruct (stdin_active s); [|done].
      cbn [handled]. eapply IH; [exact H|done|].
      destruct Ht as (Ha & Hn & Ho & He). split; [done|]. split; [done|]. done.
Qed.

(** No stream object is created or dropped by the loop. *)
Lemma handle_present buffer sel s s' :
  handle buffer sel s = Done s' →
  present (stdin_s s') = present (stdin_s s) ∧
  present (stdout_s s') = present (stdout_s s).
Proof.
  destruct sel as [d|t d|]; cbn [handle]; [| |done].
  - destruct (stdin_active s); [|done]. cbn [negb].
    destruct d; [by intros [= <-]|].
    destruct (stdin_s s); [|done]. by intros [= <-].
  - destruct d; [by intros [= <-]|].
    destruct (t =? 1)%Z; [destruct (stdout_s s) eqn:Eo; intros [= <-]; by rewrite ?Eo|].
    destruct (t =? 2)%Z; by intros [= <-].
Qed.

Lemma handle_all_present buffer sels :
  ∀ s s', handle_all buffer sels s = Done s' →
          present (stdin_s s') = present (stdin_s s) ∧
          present (stdout_s s') = present (stdout_s s).
Proof.
  induction sels as [|sel sels IH]; intros s s' H; [by injection H as <-|].
  cbn [handle_all] in H. destruct (handle buffer sel s) as [s1| |] eqn:E1; [|done|done].
  destruct (handle_present _ _ _ _ E1) as [<- <-]. by apply IH.
Qed.

Lemma io_loop_present buffer selects :
  ∀ s s', io_loop buffer selects s = Done s' →
          present (stdin_s s') = present (stdin_s s) ∧
          present (stdout_s s') = present (stdout_s s).
Proof.
  induction selects as [|sel selects IH]; intros s s' H; cbn [io_loop] in H;
    (destruct (c_socket_open s); cbn [negb] in H; [|by injection H as <-]); [done|].
  destruct sel as [sels|].
  - destruct (handle_all buffer sels s) as [s1| |] eqn:E1; [|done|done].
    destruct (handle_all_present _ _ _ _ E1) as [<- <-]. by apply IH.
  - destruct (stdin_active s); [|done]. by apply IH in H.
Qed.

Lemma stream_record_tracks hexd p s acc :
  tracks_opt s acc →
  stream_record hexd p s
  = match s, acc with
    | Some _, _ :: _ => [mkFileLog p (hexd acc)]
    | _, _ => []
    end.
Proof.
  destruct s as [t|]; [|done]. intros [Hm Hl]. unfold stream_record.
  rewrite Hl, Hm. by destruct acc.
Qed.

(** The file records of the entry that [__container_exec] returns. *)
Lemma container_exec_files hexd self selects code cmd_args read_stdin write_stdout entry :
  container_exec hexd self selects code cmd_args read_stdin write_stdout = Done entry →
  exit_code entry = default 0%Z code ∧
  (read_stdin = false → stdin_bytes selects = []) ∧
  in_files entry
  = (if (default 0 code =? 0)%Z
     then match stdin_bytes selects with
          | [] => []
          | _ :: _ => [mkFileLog "/dev/stdin" (hexd (stdin_bytes selects))]
          end
     else []) ∧
  out_files entry
  = (if (default 0 code =? 0)%Z
     then (if write_stdout
           then match produced 1 selects with
                | [] => []
                | _ :: _ => [mkFileLog "/dev/stdout" (hexd (produced 1 selects))]
                end
           else [])
          ++ match produced 2 selects with
             | [] => []
             | _ :: _ => [mkFileLog "/dev/stderr" (hexd (produced 2 selects))]
             end
     else []).
Proof.
  unfold container_exec.
  destruct (io_loop _ _ _) as [s| |] eqn:E; [|done|done].
  intros [= <-].
  assert (Ht0 : tracks (mkStreams (if read_stdin then Some new_ToolStream else None)
                                  (if write_stdout then Some new_ToolStream else None)
                                  new_ToolStream read_stdin true []) [] [] []).
  { split; [by destruct read_stdin|]. split; [done|].
    split; [by destruct write_stdout|done]. }
  pose proof (io_loop_tracks _ _ _ _ _ _ _ E eq_refl Ht0) as (Ha & Hn & Ho & He).
  cbn [app] in Ha, Hn, Ho, He.
  change (stdin_of (handled selects)) with (stdin_bytes selects) in Ha, Hn.
  change (produced_of 1 (handled selects)) with (produced 1 selects) in Ho.
  change (produced_of 2 (handled selects)) with (produced 2 selects) in He.
  destruct (io_loop_present _ _ _ _ E) as [Pi Po]. cbn [stdin_s stdout_s] in Pi, Po.
  unfold collect. cbn [exit_code in_files out_files new_CommandLog app].
  split; [done|]. split; [|split].
  - intros ->. apply Hn. by destruct (stdin_s s).
  - destruct (default 0 code =? 0)%Z; [|done].
    rewrite (stream_record_tracks hexd _ _ _ Ha).
    destruct (stdin_s s); [done|]. rewrite Hn by done. done.
  - destruct (default 0 code =? 0)%Z; [|done].
    rewrite (stream_record_tracks hexd _ _ _ Ho), (stream_record_tracks hexd _ _ _ He).
    destruct (stdout_s s), write_stdout; done.
Qed.

(** C9, in the form that holds of the code.  When [__container_exec] returns an entry with exit
    code 0, the entry's input records contain [/dev/stdin] with the
    digest of the bytes read from standard input whenever at least one
    byte was read; its output records contain [/dev/stderr] with the
    digest of the bytes the container wrote to its standard error
    whenever there is at least one, and [/dev/stdout] likewise provided
    that standard output is passed on ([write_stdout], that is, it is
    not taken by the output archive). *)
Theorem C9_stream_records (hexd : bytes -> string) (self : ToolImage)
        (selects : list Select) (code : option Z) (cmd_args : list string)
        (read_stdin write_stdout : bool) (entry : CommandLog) :
  container_exec hexd self selects code cmd_args read_stdin write_stdout = Done entry →
  exit_code entry = 0%Z →
  (stdin_bytes selects ≠ [] →
   In (mkFileLog "/dev/stdin" (hexd (stdin_bytes selects))) (in_files entry)) ∧
  (write_stdout = true → produced 1 selects ≠ [] →
   In (mkFileLog "/dev/stdout" (hexd (produced 1 selects))) (out_files entry)) ∧
  (produced 2 selects ≠ [] →
   In (mkFileLog "/dev/stderr" (hexd (produced 2 selects))) (out_files entry)).
Proof.
  intros E Hz.
  destruct (container_exec_files _ _ _ _ _ _ _ _ E) as (Hc & _ & Hi & Ho).
  rewrite Hc in Hz. rewrite Hz in Hi, Ho. cbn [Z.eqb] in Hi, Ho.
  rewrite Hi, Ho. split; [|split].
  - intros Hne. destruct (stdin_bytes selects); [done|by left].
  - intros -> Hne. apply in_or_app. left.
    destruct (produced 1 selects); [done|by left].
  - intros Hne. apply in_or_app. right.
    destruct (produced 2 selects); [done|by left].
Qed.

End Runner.

Lemma C9_stream_records_witness :
  In (mkFileLog "/dev/stdin" "hin") (in_files
       (mkCommandLog ["cincan/env"; "cat"] 0 [] [] []
                     [mkFileLog "/dev/stdin" "hin"]
                     [mkFileLog "/dev/stdout" "ho"; mkFileLog "/dev/stderr" "he"])) ∧
  In (mkFileLog "/dev/stdout" "ho") (out_files
       (mkCommandLog ["cincan/env"; "cat"] 0 [] [] []
                     [mkFileLog "/dev/stdin" "hin"]
                     [mkFileLog "/dev/stdout" "ho"; mkFileLog "/dev/stderr" "he"])) ∧
  In (mkFileLog "/dev/stderr" "he") (out_files
       (mkCommandLog ["cincan/env"; "cat"] 0 [] [] []
                     [mkFileLog "/dev/stdin" "hin"]
                     [mkFileLog "/dev/stdout" "ho"; mkFileLog "/dev/stderr" "he"])).
Proof.
  pose proof (C9_stream_records Ex.toy_hexdigest FrontendSpec.tool FrontendSpec.busy_run
                (Some 0%Z) ["cat"] true true
                (mkCommandLog ["cincan/env"; "cat"] 0 [] [] []
                              [mkFileLog "/dev/stdin" "hin"]
                              [mkFileLog "/dev/stdout" "ho"; mkFileLog "/dev/stderr" "he"])
                eq_refl eq_refl) as (Hi & Ho & He).
  split; [|split].
  - apply Hi. vm_compute. discriminate.
  - apply Ho; [reflexivity|]. vm_compute. discriminate.
  - apply He. vm_compute. discriminate.
Defined.

(** Standard output carries the output archive ([write_stdout] is false):
    the tool prints one byte, the execution ends with exit code 0, and the
    entry has no record for [/dev/stdout]. *)
Lemma C9_counterexample :
  Frontend.produced 1 FrontendSpec.one_byte_run = [Byte.x78] ∧
  Frontend.container_exec Ex.toy_hexdigest FrontendSpec.tool FrontendSpec.one_byte_run
                          (Some 0%Z) ["cat"] true false
  = Frontend.Done (mkCommandLog ["cincan/env"; "cat"] 0 [] [] [] [] []).
Proof. split; vm_compute; reflexivity. Qed.

(** * Further properties of the inspector *)

Section Trees.
Context (w : World) (self : CommandInspector).

(** An induction principle for the trees the traversal returns: a
    property holds of every returned tree when it holds of a file node
    whose command children are entries of the store, carry the direction
    of the traversal, and have for children the file nodes of the entry's
    records, each of which has the property. *)
Lemma fan_tree_ind (P : bool → FileDependency → Prop) :
  (∀ out fp d next,
      Forall (fun cn =>
                In (cd_command cn) (log self) ∧ cd_out cn = out ∧
                Forall2 (fun f t => child_of_record w self out f t ∧ P out t)
                        (next_files out (cd_command cn)) (cd_next cn)) next →
      P out (mkFileDependency fp d out next)) →
  ∀ n out file ac digest st t st',
    fan w self n out file ac digest st = Some (t, st') → P out t.
Proof.
  intros Hstep. induction n as [|n IH]; intros out file ac digest st t st'; [done|].
  rewrite fan_unfold. cbv zeta. destruct (bool_decide _).
  - intros [= <- <-]. apply Hstep. constructor.
  - destruct (scan _ _ _ _ _) as [[next s]|] eqn:Es; [|done].
    intros [= <- <-]. apply Hstep.
    pose proof (scan_Forall2 _
                  (fun f t => child_of_record w self out f t ∧ P out t) _ _ _
                  (fun f s0 t s1 Hr =>
                     conj (fan_root w self _ _ _ _ _ _ _ _ Hr) (IH _ _ _ _ _ _ _ Hr))
                  _ _ _ Es) as Hall.
    eapply Forall2_Forall_r; [exact Hall|].
    intros c cn Hc (Hcmd & Ho & Hfs). cbv beta. rewrite Hcmd.
    split; [|done]. apply filter_In in Hc as [Hc _]. by apply list_entries_In in Hc.
Qed.

(** X1. A query returns the anchor without children exactly when no
    entry of the store has, on the matched side, a record with the digest
    of the anchor; in particular for the empty store. *)
Theorem leaf_iff_no_match (out : bool) (file : Path) (digest : option string)
        (st : State) :
  ∃ t st',
    traverse w self out file None digest st = Some (t, st') ∧
    (fd_next t = [] ↔
     ∀ c, In c (log self) →
          digest_here (effective_digest w digest file) (match_files out c) = false) ∧
    (log self = [] → t = leaf w self out file digest).
Proof.
  rewrite traverse_fan.
  destruct (fan_total w self out file None digest st) as (t & st' & E).
  exists t, st'. split; [done|].
  pose proof (fan_commands w self _ _ _ _ _ _ _ E) as Hc. rewrite visited_None in Hc.
  pose proof (fan_root w self _ _ _ _ _ _ _ _ E) as (Hf & Hd & Ho).
  assert (Hiff : fd_next t = [] ↔
                 ∀ c, In c (log self) →
                      digest_here (effective_digest w digest file) (match_files out c)
                      = false).
  { split.
    - intros Hnil c Hin. rewrite Hnil in Hc. cbn [map] in Hc.
      destruct (digest_here _ _) eqn:Em; [|done].
      assert (Hin' : In c (List.filter (matches out (effective_digest w digest file))
                                       (list_entries (log self) true)))
        by (apply filter_In; split; [by apply list_entries_In|done]).
      rewrite <- Hc in Hin'. destruct Hin'.
    - intros Hno. apply (map_eq_nil cd_command). rewrite Hc.
      destruct (List.filter _ _) as [|c cs] eqn:Ef; [done|exfalso].
      assert (Hin : In c (List.filter (matches out (effective_digest w digest file))
                                      (list_entries (log self) true)))
        by (rewrite Ef; by left).
      apply filter_In in Hin as [Hin Hm]. apply list_entries_In in Hin.
      unfold matches in Hm. by rewrite (Hno c Hin) in Hm. }
  split; [done|].
  intros Hlog. assert (Hnil : fd_next t = []) by (apply Hiff; rewrite Hlog; intros c []).
  destruct t as [f' d' o' n']. simpl in Hf, Hd, Ho, Hnil. unfold leaf. by subst.
Qed.

(** X2. Every node of the tree of a [fanin] carries [out = False] and
    every node of the tree of a [fanout] carries [out = True]: the
    renderer uses one family of connectors throughout a tree. *)
Theorem direction_uniform (out : bool) (file : Path) (already_covered : option nat)
        (digest : option string) (st : State) :
  ∃ t st',
    traverse w self out file already_covered digest st = Some (t, st') ∧
    direction_ok out t = true.
Proof.
  rewrite traverse_fan.
  destruct (fan_total w self out file already_covered digest st) as (t & st' & E).
  exists t, st'. split; [done|].
  eapply (fan_tree_ind (fun o t => direction_ok o t = true)); [|exact E].
  clear. intros out fp d next Hall. cbn [direction_ok].
  rewrite Bool.eqb_reflx. cbn [andb]. apply forallb_forall. intros cn Hin.
  rewrite List.Forall_forall in Hall. destruct (Hall cn Hin) as (_ & Ho & Hfs).
  destruct cn as [c o ts]. cbn [direction_ok_cmd cd_out cd_next cd_command] in *.
  subst o. rewrite Bool.eqb_reflx. cbn [andb]. apply forallb_forall. intros t Ht.
  clear -Hfs Ht. induction Hfs as [|f t' fs ts [_ Hp] _ IH]; [done|].
  destruct Ht as [<-|Ht]; [done|by apply IH].
Qed.

(** X3. Every command node of a returned tree, at any depth, holds an
    entry of the store. *)
Theorem commands_from_store (out : bool) (file : Path) (already_covered : option nat)
        (digest : option string) (st : State) :
  ∃ t st',
    traverse w self out file already_covered digest st = Some (t, st') ∧
    ∀ c, In c (tree_commands t) → In c (log self).
Proof.
  rewrite traverse_fan.
  destruct (fan_total w self out file already_covered digest st) as (t & st' & E).
  exists t, st'. split; [done|].
  eapply (fan_tree_ind (fun _ t => ∀ c, In c (tree_commands t) → In c (log self)));
    [|exact E].
  clear. intros out fp d next Hall c Hin. cbn [tree_commands] in Hin.
  apply in_flat_map in Hin as (cn & Hcn & Hin).
  rewrite List.Forall_forall in Hall. destruct (Hall cn Hcn) as (Hlog & _ & Hfs).
  destruct cn as [c' o ts]. cbn [tree_commands_cmd cd_command cd_next] in *.
  destruct Hin as [<-|Hin]; [done|].
  apply in_flat_map in Hin as (t & Ht & Hin).
  clear -Hfs Ht Hin. induction Hfs as [|f t' fs ts [_ Hp] _ IH]; [done|].
  destruct Ht as [<-|Ht]; [by apply Hp|by apply IH].
Qed.

(** X4. The calls of [hash_of] of a traversal: one for the anchor when
    no digest (or the empty one) is passed, and after it only calls for
    store records whose stored digest is empty; a record with a non-empty
    digest is never hashed. *)
Theorem hash_calls (out : bool) (file : Path) (already_covered : option nat)
        (digest : option string) (st : State) :
  ∃ t st' L,
    traverse w self out file already_covered digest st = Some (t, st') ∧
    hashed st' = hashed st ++ (if digest_given digest then [] else [file]) ++ L ∧
    Forall (fun p => ∃ f, In f (store_files (log self)) ∧ md5 f = "" ∧ path f = p) L.
Proof.
  rewrite traverse_fan.
  destruct (fan_total w self out file already_covered digest st) as (t & st' & E).
  pose proof (fan_inv w self _ _ _ _ _ _ _ _ E) as [(_ & (L & EL & FL) & _) _].
  rewrite hashed_covered_state, hashed_traced in EL.
  exists t, st', L. split; [done|]. split; [|done]. by rewrite EL, app_assoc.
Qed.

(** X5. The number of file nodes that are given children never exceeds
    the number of file records of the store plus one, whatever cycles the
    entries encode. *)
Theorem expansions_bounded (out : bool) (file : Path) (already_covered : option nat)
        (digest : option string) (st : State) :
  ∃ t st',
    traverse w self out file already_covered digest st = Some (t, st') ∧
    (length (expanded_keys file t) ≤ S (length (store_files (log self))))%nat.
Proof.
  rewrite traverse_fan.
  destruct (fan_total w self out file already_covered digest st) as (t & st' & E).
  exists t, st'. split; [done|].
  pose proof (fan_inv w self _ _ _ _ _ _ _ _ E) as [(_ & _ & Hnd & _) _].
  assert (Hincl : ∀ file', incl (expanded_keys file' t)
                                (file_check file' (fd_digest t)
                                 :: map (record_key w) (store_files (log self)))).
  { eapply (fan_tree_ind
              (fun _ t => ∀ file', incl (expanded_keys file' t)
                                        (file_check file' (fd_digest t)
                                         :: map (record_key w) (store_files (log self)))));
      [|exact E].
    clear. intros out fp d next Hall file' k Hk. cbn [expanded_keys fd_digest] in *.
    apply in_app_or in Hk as [Hk|Hk].
    - left. destruct next; [destruct Hk|]. by destruct Hk as [<-|[]].
    - right. apply in_flat_map in Hk as (cn & Hcn & Hk).
      rewrite List.Forall_forall in Hall. destruct (Hall cn Hcn) as (Hlog & Ho & Hfs).
      destruct cn as [c o ts]. cbn [expanded_keys_cmd cd_command cd_next cd_out] in *.
      subst o.
      assert (Hsub : ∀ f, In f (next_files out c) → In f (store_files (log self)))
        by (intros f; by apply next_files_store).
      clear -Hfs Hk Hsub. revert Hk Hsub.
      induction Hfs as [|f t' fs ts [(_ & Hd & _) Hp] _ IH]; cbn [walk2]; [done|].
      intros Hk Hsub. apply in_app_or in Hk as [Hk|Hk].
      + destruct (Hp _ _ Hk) as [<-|Hin]; [|done].
        apply in_map_iff. exists f. split; [|apply Hsub; by left].
        unfold record_key. by rewrite Hd.
      + apply IH; [done|]. intros f' Hf'. apply Hsub. by right. }
  pose proof (NoDup_incl_length (proj1 (NoDup_ListNoDup _) Hnd) (Hincl file)) as Hlen.
  cbn [length] in Hlen. by rewrite length_map in Hlen.
Qed.

End Trees.

(** ** A query does not depend on the heap it starts in *)

Lemma mapM_sim {A B} (R : State -> State -> Prop) (f g : A -> M B) l :
  (∀ a s1 s2, In a l → R s1 s2 → sim_res R (f a s1) (g a s2)) →
  ∀ s1 s2, R s1 s2 → sim_res R (mapM f l s1) (mapM g l s2).
Proof.
  induction l as [|a l IH]; intros Hfg s1 s2 HR; [done|].
  rewrite !mapM_cons.
  pose proof (Hfg a s1 s2 (or_introl eq_refl) HR) as Ha. unfold sim_res in Ha.
  destruct (f a s1) as [[b1 s1']|], (g a s2) as [[b2 s2']|]; try done.
  destruct Ha as [<- HR'].
  pose proof (IH (fun a' s s' Hin => Hfg a' s s' (or_intror Hin)) s1' s2' HR') as Hl.
  unfold sim_res in Hl.
  destruct (mapM f l s1') as [[bs1 t1]|], (mapM g l s2') as [[bs2 t2]|]; try done.
  destruct Hl as [<- Hl]. done.
Qed.

Lemma scan_sim (R : State -> State -> Prop) rec1 rec2 out d entries :
  (∀ f s1 s2, R s1 s2 → sim_res R (rec1 f s1) (rec2 f s2)) →
  ∀ s1 s2, R s1 s2 →
    sim_res R (scan rec1 out d entries s1) (scan rec2 out d entries s2).
Proof.
  intros Hrec. induction entries as [|c rest IH]; intros s1 s2 HR; [done|].
  rewrite !scan_cons. destruct (matches out d c); [|by apply IH].
  pose proof (mapM_sim R rec1 rec2 (next_files out c)
                (fun f s s' _ => Hrec f s s') s1 s2 HR) as Hm.
  unfold sim_res in Hm.
  destruct (mapM rec1 _ s1) as [[ts1 s1']|], (mapM rec2 _ s2) as [[ts2 s2']|]; try done.
  destruct Hm as [<- HR'].
  pose proof (IH s1' s2' HR') as Hs. unfold sim_res in Hs.
  destruct (scan rec1 out d rest s1') as [[cs1 t1]|],
           (scan rec2 out d rest s2') as [[cs2 t2]|]; try done.
  destruct Hs as [<- Hs]. done.
Qed.

Section Independence.
Context (w : World) (self : CommandInspector).

(** Two calls on set objects with the same content return the same tree
    and leave the same content. *)
Lemma fan_sim (n : nat) :
  ∀ out file digest l1 l2 s1 s2,
    same_set l1 l2 s1 s2 →
    sim_res (same_set l1 l2)
            (fan w self n out file (Some l1) digest s1)
            (fan w self n out file (Some l2) digest s2).
Proof.
  induction n as [|n IH]; intros out file digest l1 l2 s1 s2 [Heq Hne]; [done|].
  assert (Hne2 : set_at s2 l2 ≠ ∅) by (by rewrite <- Heq).
  rewrite !fan_unfold. cbv zeta.
  destruct (covered_Some_nonempty l1 s1 digest file Hne) as [-> ->].
  destruct (covered_Some_nonempty l2 s2 digest file Hne2) as [-> ->].
  rewrite !set_at_traced, <- Heq.
  destruct (bool_decide _) eqn:Hseen.
  - split; [done|]. split; by rewrite !set_at_traced.
  - set (key := file_check file (effective_digest w digest file)).
    assert (Hv1 : l1 < length (sets (traced digest file s1)))
      by (rewrite sets_traced; by apply set_at_valid).
    assert (Hv2 : l2 < length (sets (traced digest file s2)))
      by (rewrite sets_traced; by apply set_at_valid).
    assert (HR : same_set l1 l2 (added l1 key (traced digest file s1))
                          (added l2 key (traced digest file s2))).
    { split; rewrite !set_at_added by done; rewrite !set_at_traced, ?Heq; [done|].
      set_solver. }
    pose proof (scan_sim (same_set l1 l2)
                  (fun f => fan w self n out (path f) (Some l1) (Some (md5 f)))
                  (fun f => fan w self n out (path f) (Some l2) (Some (md5 f)))
                  out (effective_digest w digest file) (list_entries (log self) true)
                  (fun f s s' Hs => IH out (path f) (Some (md5 f)) l1 l2 s s' Hs)
                  _ _ HR) as Hs.
    unfold sim_res in Hs.
    destruct (scan _ _ _ _ (added l1 _ _)) as [[n1 t1]|],
             (scan _ _ _ _ (added l2 _ _)) as [[n2 t2]|]; try done.
    destruct Hs as [<- Hs]. done.
Qed.

(** X6. The tree of a query does not depend on the state it is asked in:
    asking again, after any other traversal, returns the same tree. *)
Theorem query_independent_of_state (out : bool) (file : Path) (digest : option string)
        (st1 st2 : State) :
  fst <$> traverse w self out file None digest st1
  = fst <$> traverse w self out file None digest st2.
Proof.
  rewrite traverse_fan. change (budget self) with (S (S (length (store_files (log self))))).
  rewrite !fan_unfold. cbv zeta.
  set (t1 := traced digest file st1). set (t2 := traced digest file st2).
  cbn [covered_loc covered_state].
  rewrite (set_at_fresh t1), (set_at_fresh t2).
  rewrite bool_decide_eq_false_2 by set_solver.
  set (key := file_check file (effective_digest w digest file)).
  set (l1 := length (sets t1)). set (l2 := length (sets t2)).
  set (s1 := mkState (sets t1 ++ [∅]) (hashed t1)).
  set (s2 := mkState (sets t2 ++ [∅]) (hashed t2)).
  assert (Hv1 : l1 < length (sets s1)) by (subst s1 l1; cbn; rewrite length_app; cbn; lia).
  assert (Hv2 : l2 < length (sets s2)) by (subst s2 l2; cbn; rewrite length_app; cbn; lia).
  assert (HR : same_set l1 l2 (added l1 key s1) (added l2 key s2)).
  { split; rewrite !set_at_added by done; subst s1 s2 l1 l2;
      rewrite (set_at_fresh t1), ?(set_at_fresh t2); [done|set_solver]. }
  pose proof (scan_sim (same_set l1 l2)
                (fun f => fan w self (S (length (store_files (log self)))) out (path f)
                              (Some l1) (Some (md5 f)))
                (fun f => fan w self (S (length (store_files (log self)))) out (path f)
                              (Some l2) (Some (md5 f)))
                out (effective_digest w digest file) (list_entries (log self) true)
                (fun f s s' Hs => fan_sim _ out (path f) (Some (md5 f)) l1 l2 s s' Hs)
                _ _ HR) as Hs.
  unfold sim_res in Hs.
  destruct (scan _ _ _ _ (added l1 _ _)) as [[n1 u1]|],
           (scan _ _ _ _ (added l2 _ _)) as [[n2 u2]|]; try done.
  destruct Hs as [<- _]. done.
Qed.

End Independence.

(** ** Visitation keys *)

Lemma has_char_colon_app (a b : string) : has_char ":" (a +:+ String ":" b) = true.
Proof.
  induction a as [|x a IH]; [done|].
  change (String x a +:+ String ":" b) with (String x (a +:+ String ":" b)).
  cbn [has_char]. rewrite IH. apply orb_true_r.
Qed.

(** X7. For digests without a colon, as hexadecimal digests are, the
    visitation key determines the path and the digest: two different
    (path, digest) pairs never share a key. *)
Theorem file_check_inj (p1 p2 : Path) (d1 d2 : string) :
  has_char ":" d1 = false → has_char ":" d2 = false →
  file_check p1 d1 = file_check p2 d2 →
  p1 = p2 ∧ d1 = d2.
Proof.
  unfold file_check. intros H1 H2. revert p2.
  induction p1 as [|x p1 IH]; intros [|y p2] E.
  - change (String ":" d1 = String ":" d2) in E. by injection E as ->.
  - change (String ":" d1 = String y (p2 +:+ ":" +:+ d2)) in E.
    injection E as <- E. rewrite E, has_char_colon_app in H1. done.
  - change (String x (p1 +:+ ":" +:+ d1) = String ":" d2) in E.
    injection E as -> E. rewrite <- E, has_char_colon_app in H2. done.
  - change (String x (p1 +:+ ":" +:+ d1) = String y (p2 +:+ ":" +:+ d2)) in E.
    injection E as <- E. destruct (IH p2 E) as [-> ->]. done.
Qed.

Lemma file_check_inj_witness :
  "/w/a" = "/w/a" ∧ "0cc175b9c0f1b6a8" = "0cc175b9c0f1b6a8".
Proof.
  apply (file_check_inj "/w/a" "/w/a" "0cc175b9c0f1b6a8" "0cc175b9c0f1b6a8").
  - reflexivity.
  - reflexivity.
  - reflexivity.
Defined.

(** ** Hashing a file *)

(** X8. [hash_of] of a regular file is the digest of the whole content,
    in order, however many 2048-byte chunks the read loop takes; of
    anything else it is the empty string. *)
Theorem hash_of_whole_file (w : World) (file : Path) :
  hash_of w file = match read_bytes w file with
                   | Some content => hexdigest w content
                   | None => ""
                   end.
Proof.
  destruct (read_bytes w file) as [content|] eqn:E.
  - by apply hash_of_regular.
  - unfold hash_of. by rewrite E.
Qed.

(** ** The visited set after a traversal *)

Lemma grows_nil l st : (l < length (sets st))%nat → grows l [] st st.
Proof. intros H. split; [by apply extends_refl|]. set_solver. Qed.

Lemma grows_app l ks1 ks2 st1 st2 st3 :
  grows l ks1 st1 st2 → grows l ks2 st2 st3 → grows l (ks1 ++ ks2) st1 st3.
Proof.
  intros [E1 S1] [E2 S2]. split; [by eapply extends_trans|].
  rewrite S2, S1, list_to_set_app_L. set_solver.
Qed.

Lemma mapM_grows l (rec : FileLog -> M FileDependency) fs :
  (∀ f s t s', In f fs → set_at s l ≠ ∅ → rec f s = Some (t, s') →
               grows l (all_keys (path f) t) s s') →
  ∀ s ts s', set_at s l ≠ ∅ → mapM rec fs s = Some (ts, s') →
    grows l (walk2 (fun f t' => all_keys (path f) t') fs ts) s s'.
Proof.
  induction fs as [|f fs IH]; intros Hrec s ts s' Hne.
  - intros [= <- <-]. apply grows_nil. by apply set_at_valid.
  - rewrite mapM_cons. destruct (rec f s) as [[t s1]|] eqn:E1; [|done].
    destruct (mapM rec fs s1) as [[ts' s2]|] eqn:E2; [|done].
    intros [= <- <-]. cbn [walk2].
    pose proof (Hrec f s t s1 (or_introl eq_refl) Hne E1) as H1.
    eapply grows_app; [exact H1|].
    eapply IH; [|eapply extends_nonempty; [apply H1|done]|exact E2].
    intros f' s0 t0 s0' Hin. apply Hrec. by right.
Qed.

Lemma scan_grows l rec out d entries :
  (∀ c f s t s', In c entries → In f (next_files out c) → set_at s l ≠ ∅ →
                 rec f s = Some (t, s') → grows l (all_keys (path f) t) s s') →
  ∀ s cs s', set_at s l ≠ ∅ → scan rec out d entries s = Some (cs, s') →
    grows l (flat_map all_keys_cmd cs) s s'.
Proof.
  induction entries as [|c rest IH]; intros Hrec s cs s' Hne.
  - intros [= <- <-]. apply grows_nil. by apply set_at_valid.
  - assert (Hrest : ∀ c' f s t s', In c' rest → In f (next_files out c') →
                set_at s l ≠ ∅ → rec f s = Some (t, s') →
                grows l (all_keys (path f) t) s s')
      by (intros c' f s0 t s0' Hc; apply Hrec; by right).
    rewrite scan_cons. destruct (matches out d c); [|by apply IH].
    destruct (mapM rec _ s) as [[ts s1]|] eqn:E1; [|done].
    destruct (scan rec out d rest s1) as [[cs' s2]|] eqn:E2; [|done].
    intros [= <- <-]. cbn [flat_map all_keys_cmd].
    assert (H1 : grows l (walk2 (fun f t' => all_keys (path f) t')
                                (next_files out c) ts) s s1).
    { eapply mapM_grows; [|done|exact E1].
      intros f s0 t s0' Hf. apply (Hrec c); [by left|done]. }
    eapply grows_app; [exact H1|].
    eapply IH; [done|eapply extends_nonempty; [apply H1|done]|exact E2].
Qed.

Section Visited.
Context (w : World) (self : CommandInspector).

Lemma fan_grows (n : nat) :
  ∀ out file ac digest st t st',
    fan w self n out file ac digest st = Some (t, st') →
    let st1 := traced digest file st in
    grows (covered_loc ac st1) (all_keys file t) (covered_state ac st1) st'.
Proof.
  induction n as [|n IH]; intros out file ac digest st t st'; [done|].
  rewrite fan_unfold. cbv zeta.
  set (d := effective_digest w digest file).
  set (st1 := traced digest file st).
  set (l := covered_loc ac st1). set (st2 := covered_state ac st1).
  pose proof (covered_loc_valid ac st1) as Hl. fold l st2 in Hl.
  destruct (bool_decide _) eqn:Hseen.
  - intros [= <- <-]. apply bool_decide_eq_true in Hseen.
    split; [by apply extends_refl|]. cbn [all_keys flat_map]. set_solver.
  - apply bool_decide_eq_false in Hseen.
    set (st3 := added l (file_check file d) st2).
    destruct (scan _ _ _ _ _) as [[next s]|] eqn:Es; [|done].
    intros [= <- <-].
    assert (H3 : set_at st3 l = {[file_check file d]} ∪ set_at st2 l)
      by (by apply set_at_added).
    assert (Hscan : grows l (flat_map all_keys_cmd next) st3 s).
    { eapply scan_grows; [| |exact Es]; [|rewrite H3; set_solver].
      intros c f s0 t0 s0' Hc Hf Hne Hr. cbv beta in Hr.
      apply IH in Hr. cbv zeta in Hr.
      assert (Hloc : covered_loc (Some l) (traced (Some (md5 f)) (path f) s0) = l).
      { unfold covered_loc. rewrite set_at_traced. by destruct (decide _). }
      assert (Hst : covered_state (Some l) (traced (Some (md5 f)) (path f) s0)
                    = traced (Some (md5 f)) (path f) s0).
      { unfold covered_state. rewrite set_at_traced. by destruct (decide _). }
      rewrite Hloc, Hst in Hr. destruct Hr as [He Hs].
      rewrite set_at_traced in Hs. split; [|done].
      eapply extends_trans; [|exact He].
      apply extends_traced. by apply set_at_valid. }
    change (all_keys file (mkFileDependency (work_path w self file) d out next))
      with ([file_check file d] ++ flat_map all_keys_cmd next).
    eapply grows_app; [|exact Hscan].
    split; [by apply extends_added|]. rewrite H3. set_solver.
Qed.

(** X23. The visited set after a call.  The call returns, and the set it
    worked on (the one passed when it is not empty, a new one otherwise)
    then holds what it held before and the keys [path:digest] of all the
    file nodes of the returned tree, and nothing else. *)
Theorem visited_set_is_tree_keys (out : bool) (file : Path)
        (already_covered : option nat) (digest : option string) (st : State) :
  ∃ t st',
    traverse w self out file already_covered digest st = Some (t, st') ∧
    let st1 := traced digest file st in
    let l := covered_loc already_covered st1 in
    set_at st' l
    = set_at (covered_state already_covered st1) l ∪ list_to_set (all_keys file t).
Proof.
  destruct (fan_total w self out file already_covered digest st) as (t & st' & E).
  exists t, st'. split; [unfold traverse, fanout, fanin; by destruct out|].
  apply (fan_grows _ _ _ _ _ _ _ _ E).
Qed.

End Visited.

(** * Further properties of the renderers *)

Lemma count_char_app c (a b : string) :
  count_char c (a +:+ b) = (count_char c a + count_char c b)%nat.
Proof.
  induction a as [|x a IH]; [done|].
  change (String x a +:+ b) with (String x (a +:+ b)).
  cbn [count_char]. rewrite IH. lia.
Qed.

Lemma count_char_none c s : has_char c s = false → count_char c s = 0%nat.
Proof.
  induction s as [|x s IH]; cbn [has_char count_char]; [done|].
  intros H. apply orb_false_iff in H as [-> H]. by rewrite IH.
Qed.

Lemma count_char_indent s : count_char nl_char (indent s) = count_char nl_char s.
Proof.
  unfold indent. induction s as [|x s IH]; [done|].
  cbn [replace_char count_char]. destruct (Ascii.eqb x nl_char) eqn:E.
  - rewrite count_char_app, IH. reflexivity.
  - cbn [count_char]. by rewrite E, IH.
Qed.

Lemma count_char_concat c (l : list string) :
  count_char c (String.concat "" l) = list_sum (map (count_char c) l).
Proof.
  induction l as [|x l IH]; [done|]. destruct l as [|y l].
  - change (String.concat "" [x]) with x. cbn [map list_sum fold_right]. lia.
  - change (String.concat "" (x :: y :: l)) with (x +:+ "" +:+ String.concat "" (y :: l)).
    rewrite !count_char_app, IH. cbn [map list_sum fold_right count_char]. lia.
Qed.

Lemma list_sum_In_le (l : list nat) x : In x l → (x ≤ list_sum l)%nat.
Proof.
  induction l as [|y l IH]; [done|].
  change (list_sum (y :: l)) with (y + list_sum l)%nat.
  intros [->|H]; [lia|]. specialize (IH H). lia.
Qed.

Section Lines.
Context (quote_args : list string -> list string).

Lemma render_lines_aux (n : nat) :
  (∀ t, (node_count t ≤ n)%nat → labels_ok quote_args t = true →
        S (count_char nl_char (FileDependency_str quote_args t)) = node_count t) ∧
  (∀ cn, (node_count_cmd cn ≤ n)%nat → labels_ok_cmd quote_args cn = true →
         S (count_char nl_char (CommandDependency_str quote_args cn)) = node_count_cmd cn).
Proof.
  induction n as [|n [IHf IHc]].
  - split; intros [] H; cbn in H; lia.
  - split.
    + intros [file digest out next] Hn Hl.
      cbn [FileDependency_str node_count labels_ok] in *.
      apply andb_true_iff in Hl as [Hl Hnext]. apply andb_true_iff in Hl as [Hf Hd].
      apply negb_true_iff in Hf, Hd.
      rewrite attach_concat, count_char_app, count_char_concat, map_map.
      rewrite (count_char_none _ _ (has_char_file_string _ _ Hf Hd)).
      cbn [Nat.add]. f_equal. f_equal. rewrite map_map. apply map_ext_in.
      intros cn Hin. rewrite count_char_app, count_char_indent.
      assert (Hg : count_char nl_char (file_glyph out) = 1%nat) by (by destruct out).
      rewrite Hg. apply IHc.
      * pose proof (list_sum_In_le _ _ (in_map node_count_cmd _ _ Hin)). lia.
      * rewrite forallb_forall in Hnext. by apply Hnext.
    + intros [cmd out ts] Hn Hl.
      cbn [CommandDependency_str node_count_cmd labels_ok_cmd] in *.
      apply andb_true_iff in Hl as [Hc Hts]. apply negb_true_iff in Hc.
      rewrite attach_concat, count_char_app, count_char_concat, map_map.
      rewrite (count_char_none _ _ Hc).
      cbn [Nat.add]. f_equal. f_equal. rewrite map_map. apply map_ext_in.
      intros t Hin. rewrite count_char_app, count_char_indent.
      assert (Hg : count_char nl_char (command_glyph out) = 1%nat) by (by destruct out).
      rewrite Hg. apply IHf.
      * pose proof (list_sum_In_le _ _ (in_map node_count _ _ Hin)). lia.
      * rewrite forallb_forall in Hts. by apply Hts.
Qed.

(** X9. When no label holds a newline, the text of a tree has exactly
    one line per node: the number of newline characters in it is the
    number of nodes, file and command nodes together, minus one. *)
Theorem render_one_line_per_node (t : FileDependency) :
  labels_ok quote_args t = true →
  S (count_char nl_char (FileDependency_str quote_args t)) = node_count t.
Proof. intros H. by apply (proj1 (render_lines_aux (node_count t))). Qed.

End Lines.

Lemma render_one_line_per_node_witness :
  S (count_char nl_char
       (FileDependency_str (fun l => l)
          (mkFileDependency "/dev/stdout" "d2" false
             [mkCommandDependency Ex.cat false [mkFileDependency "a.txt" "" false []]])))
  = 3%nat.
Proof.
  apply (render_one_line_per_node (fun l => l)
           (mkFileDependency "/dev/stdout" "d2" false
              [mkCommandDependency Ex.cat false [mkFileDependency "a.txt" "" false []]])).
  reflexivity.
Defined.

(** ** [print_fanout] *)

Lemma flat_map_map_In {A B C} (g : B -> C) (h1 : A -> list C) (h2 : A -> list B) l :
  (∀ a, In a l → h1 a = map g (h2 a)) →
  flat_map h1 l = map g (flat_map h2 l).
Proof.
  induction l as [|a l IH]; intros H; [done|]. cbn [flat_map].
  rewrite map_app, (H a (or_introl eq_refl)), IH; [done|].
  intros a' Ha'. apply H. by right.
Qed.

Lemma list_max_In_le (l : list nat) x : In x l → (x ≤ list_max l)%nat.
Proof.
  induction l as [|y l IH]; [done|].
  change (list_max (y :: l)) with (Nat.max y (list_max l)).
  intros [->|H]; [lia|]. specialize (IH H). lia.
Qed.

Section Fans.
Context (quote_args : list string -> list string).

Lemma print_fan_preorder (n : nat) :
  ∀ f fanout indent d,
    (fan_height f ≤ n)%nat →
    print_fan quote_args f fanout (Nat.iter d (fun s => s +:+ "  ") indent)
    = map (fun dc => Nat.iter (fst dc) (fun s => s +:+ "  ") indent
                     +:+ String.concat " " (quote_args (command (snd dc))) +:+ nl)
          (fan_preorder d f).
Proof.
  induction n as [|n IH]; intros [cmd next] fanout indent d Hh; cbn in Hh; [lia|].
  cbn [print_fan fan_preorder map]. f_equal.
  destruct next as [l|]; [|done].
  apply flat_map_map_In. intros f' Hin.
  change (Nat.iter d (fun s => s +:+ "  ") indent +:+ "  ")
    with (Nat.iter (S d) (fun s => s +:+ "  ") indent).
  apply IH. pose proof (list_max_In_le _ _ (in_map fan_height _ _ Hin)). lia.
Qed.

(** X10. [print_fanout] writes one line per command, in the order the
    commands are met, a command at depth [d] after [2 * d] spaces (on
    top of the initial indent); what is not a list is not gone into, and
    the [fanout] flag plays no part. *)
Theorem print_fans_lines (fans : list Fan) (fanout : bool) (indent : string) :
  print_fans quote_args fans fanout indent
  = map (fun dc => Nat.iter (fst dc) (fun s => s +:+ "  ") indent
                   +:+ String.concat " " (quote_args (command (snd dc))) +:+ nl)
        (flat_map (fan_preorder 0) fans).
Proof.
  unfold print_fans. apply flat_map_map_In. intros f _.
  apply (print_fan_preorder (fan_height f) f fanout indent 0). lia.
Qed.

End Fans.

(** * The frames of the container stream *)

Section WireProofs.
Import Wire.

Lemma fill_done fuel want buf s :
  (want ≤ length buf)%nat → fill fuel want buf s = Filled buf s.
Proof.
  intros H. apply Nat.leb_le in H. destruct fuel; cbn [fill]; by rewrite H.
Qed.

(** The read loop, whatever the pieces: it takes exactly the bytes that
    are missing when the socket has them, and everything there is
    otherwise. *)
Lemma fill_spec (fuel : nat) :
  ∀ want buf s,
    live s → (want - length buf ≤ fuel)%nat →
    ((want ≤ length buf + length (concat s))%nat →
     ∃ s', fill fuel want buf s
           = Filled (buf ++ take (want - length buf) (concat s)) s' ∧
           concat s' = drop (want - length buf) (concat s) ∧ live s') ∧
    ((length buf + length (concat s) < want)%nat →
     ∃ s', fill fuel want buf s = Short (buf ++ concat s) s').
Proof.
  induction fuel as [|fuel IH]; intros want buf s Hlive Hfuel.
  - assert (Hw : (want ≤ length buf)%nat) by lia.
    rewrite fill_done by done.
    replace (want - length buf)%nat with 0%nat by lia.
    split; [|lia]. intros _. exists s. by rewrite take_0, app_nil_r, drop_0.
  - destruct (Nat.leb_spec want (length buf)) as [Hw|Hw].
    + rewrite fill_done by done.
      replace (want - length buf)%nat with 0%nat by lia.
      split; [|lia]. intros _. exists s. by rewrite take_0, app_nil_r, drop_0.
    + cbn [fill]. rewrite (proj2 (Nat.leb_gt _ _) Hw).
      set (n := (want - length buf)%nat). assert (Hn : (0 < n)%nat) by lia.
      destruct s as [|piece rest]; cbn [read].
      * cbn [concat length]. split; [lia|]. intros _. exists []. by rewrite app_nil_r.
      * apply Forall_cons in Hlive as [Hp Hrest]. cbn [concat].
        destruct (Nat.leb_spec (length piece) n) as [Hle|Hgt].
        -- destruct piece as [|b piece']; [done|].
           destruct (IH want (buf ++ b :: piece') rest Hrest) as [IHa IHb];
             [rewrite length_app; cbn [length] in *; lia|].
           rewrite length_app in IHa, IHb. rewrite length_app.
           split; intros Hlen.
           ++ destruct IHa as (s' & E & Ec & Hl'); [lia|]. exists s'.
              rewrite E. split; [|split; [|done]].
              ** f_equal. rewrite <- app_assoc. f_equal.
                 rewrite take_app_ge by done. f_equal. f_equal. subst n. lia.
              ** rewrite Ec, drop_app_ge by done. f_equal. subst n. lia.
           ++ destruct IHb as (s' & E); [lia|]. exists s'. rewrite E.
              by rewrite <- app_assoc.
        -- assert (Ht : length (take n piece) = n) by (rewrite length_take; lia).
           destruct (take n piece) as [|b r] eqn:Etake; [cbn in Ht; lia|].
           rewrite fill_done by (rewrite length_app, Ht; lia).
           rewrite length_app. split; [|lia]. intros _.
           exists (drop n piece :: rest). split; [|split].
           ++ rewrite take_app_le by lia. by rewrite Etake.
           ++ cbn [concat]. by rewrite drop_app_le by lia.
           ++ constructor; [|done]. intros Hd.
              apply (f_equal length) in Hd. rewrite length_drop in Hd. cbn in Hd. lia.
Qed.

Lemma byte_value_bounds b : (0 ≤ byte_value b < 256)%Z.
Proof. unfold byte_value. pose proof (Byte.to_N_bounded b). lia. Qed.

Lemma unpack_Q_acc buf :
  ∀ a, fold_left (fun acc b => (acc * 256 + byte_value b)%Z) buf a
       = (a * 256 ^ Z.of_nat (length buf) + unpack_Q buf)%Z.
Proof.
  unfold unpack_Q. induction buf as [|b buf IH]; intros a.
  - cbn. lia.
  - cbn [fold_left length]. rewrite (IH (a * 256 + byte_value b)%Z).
    rewrite (IH (0 * 256 + byte_value b)%Z).
    rewrite Nat2Z.inj_succ, Z.pow_succ_r by lia. ring.
Qed.

Lemma unpack_Q_cons b buf :
  unpack_Q (b :: buf) = (byte_value b * 256 ^ Z.of_nat (length buf) + unpack_Q buf)%Z.
Proof.
  unfold unpack_Q at 1. cbn [fold_left]. rewrite unpack_Q_acc. ring.
Qed.

Lemma unpack_Q_bounds buf : (0 ≤ unpack_Q buf < 256 ^ Z.of_nat (length buf))%Z.
Proof.
  induction buf as [|b buf IH]; [cbn; lia|].
  rewrite unpack_Q_cons. cbn [length]. rewrite Nat2Z.inj_succ, Z.pow_succ_r by lia.
  pose proof (byte_value_bounds b). nia.
Qed.

(** X11. The header of a frame: of its eight bytes the first is the
    stream type and the other seven are the length of the data, most
    significant byte first; the type is below 256 and the length below
    2^56. *)
Theorem header_fields (t : Byte.byte) (rest : bytes) :
  length rest = 7%nat →
  header_type (t :: rest) = byte_value t ∧
  header_len (t :: rest) = unpack_Q rest ∧
  (0 ≤ header_type (t :: rest) < 256)%Z ∧
  (0 ≤ header_len (t :: rest) < 2 ^ 56)%Z.
Proof.
  intros Hlen. unfold header_type, header_len.
  pose proof (unpack_Q_bounds rest) as Hr. pose proof (byte_value_bounds t) as Ht.
  rewrite unpack_Q_cons, Hlen in *.
  change (256 ^ Z.of_nat 7)%Z with (2 ^ 56)%Z in *.
  change 0xffffffffffffff%Z with (Z.ones 56).
  rewrite Z.shiftr_div_pow2, Z.land_ones by lia.
  assert (Hd : ((byte_value t * 2 ^ 56 + unpack_Q rest) / 2 ^ 56 = byte_value t)%Z).
  { rewrite Z.div_add_l by lia. rewrite Z.div_small by lia. lia. }
  assert (Hm : ((byte_value t * 2 ^ 56 + unpack_Q rest) mod 2 ^ 56 = unpack_Q rest)%Z).
  { rewrite Z.add_comm, Z.mod_add by lia. apply Z.mod_small. lia. }
  rewrite Hd, Hm. repeat split; lia.
Qed.

Lemma header_fields_witness :
  header_type [Byte.x02; Byte.x00; Byte.x00; Byte.x00;
               Byte.x00; Byte.x00; Byte.x01; Byte.x05] = byte_value Byte.x02 ∧
  header_len [Byte.x02; Byte.x00; Byte.x00; Byte.x00;
              Byte.x00; Byte.x00; Byte.x01; Byte.x05]
  = unpack_Q [Byte.x00; Byte.x00; Byte.x00; Byte.x00; Byte.x00; Byte.x01; Byte.x05] ∧
  (0 ≤ header_type [Byte.x02; Byte.x00; Byte.x00; Byte.x00;
                    Byte.x00; Byte.x00; Byte.x01; Byte.x05] < 256)%Z ∧
  (0 ≤ header_len [Byte.x02; Byte.x00; Byte.x00; Byte.x00;
                   Byte.x00; Byte.x00; Byte.x01; Byte.x05] < 2 ^ 56)%Z.
Proof.
  apply (header_fields Byte.x02
           [Byte.x00; Byte.x00; Byte.x00; Byte.x00; Byte.x00; Byte.x01; Byte.x05]).
  reflexivity.
Defined.

(** X12. A whole frame is read back whatever the pieces the socket
    delivers it in: when the stream holds an eight-byte header, then as
    many data bytes as the header says, then anything, the method returns
    the type of the header with exactly those data bytes and leaves the
    rest in the socket. *)
Theorem unpack_frame (s : Socket) (header payload rest : bytes) :
  live s →
  concat s = header ++ payload ++ rest →
  length header = 8%nat →
  header_len header = Z.of_nat (length payload) →
  ∃ s', unpack_container_stream s = (Frontend.Done (header_type header, payload), s') ∧
        concat s' = rest ∧ live s'.
Proof.
  intros Hlive Hc Hh Hl. unfold unpack_container_stream.
  destruct (fill_spec 8 8 [] s Hlive) as [H1 _]; [cbn; lia|].
  destruct H1 as (s1 & E1 & C1 & L1).
  { rewrite Hc, !length_app. cbn. lia. }
  cbn [length app] in E1, C1. rewrite Nat.sub_0_r in E1, C1.
  assert (Ht : take 8 (concat s) = header) by (rewrite Hc, <- Hh; apply take_app_length).
  assert (Hd : drop 8 (concat s) = payload ++ rest)
    by (rewrite Hc, <- Hh; apply drop_app_length).
  rewrite Ht in E1. rewrite Hd in C1.
  rewrite E1, Hl, Nat2Z.id.
  destruct (fill_spec (length payload) (length payload) [] s1 L1) as [H2 _]; [cbn; lia|].
  destruct H2 as (s2 & E2 & C2 & L2).
  { rewrite C1, length_app. cbn. lia. }
  cbn [length app] in E2, C2. rewrite Nat.sub_0_r in E2, C2.
  rewrite C1, take_app_length in E2. rewrite C1, drop_app_length in C2.
  rewrite E2. by exists s2.
Qed.

Lemma unpack_frame_witness :
  ∃ s', unpack_container_stream hi_frame
        = (Frontend.Done (header_type [Byte.x01; Byte.x00; Byte.x00; Byte.x00;
                                       Byte.x00; Byte.x00; Byte.x00; Byte.x02],
                          [Byte.x68; Byte.x69]), s') ∧
        concat s' = [Byte.x02] ∧ live s'.
Proof.
  apply (unpack_frame hi_frame
           [Byte.x01; Byte.x00; Byte.x00; Byte.x00; Byte.x00; Byte.x00; Byte.x00; Byte.x02]
           [Byte.x68; Byte.x69] [Byte.x02]).
  - repeat constructor; discriminate.
  - reflexivity.
  - reflexivity.
  - reflexivity.
Defined.

(** X13. The end of the stream inside the header, also after some of
    its bytes, is not an error: the method returns [(0, b'')] and the
    bytes of the incomplete header are dropped. *)
Theorem unpack_end_of_stream (s : Socket) :
  live s →
  (length (concat s) < 8)%nat →
  ∃ s', unpack_container_stream s = (Frontend.Done (0%Z, []), s').
Proof.
  intros Hlive Hlen. unfold unpack_container_stream.
  destruct (fill_spec 8 8 [] s Hlive) as [_ H2]; [cbn; lia|].
  destruct H2 as (s' & E); [cbn; lia|]. rewrite E. by exists s'.
Qed.

Lemma unpack_end_of_stream_witness :
  ∃ s', unpack_container_stream [[Byte.x01; Byte.x00]; [Byte.x00]]
        = (Frontend.Done (0%Z, []), s').
Proof.
  apply (unpack_end_of_stream [[Byte.x01; Byte.x00]; [Byte.x00]]).
  - repeat constructor; discriminate.
  - cbn. lia.
Defined.

(** X14. The end of the stream inside the data of a frame raises: a
    frame is never returned with fewer bytes than its header says. *)
Theorem unpack_truncated (s : Socket) (header part : bytes) :
  live s →
  concat s = header ++ part →
  length header = 8%nat →
  (Z.of_nat (length part) < header_len header)%Z →
  ∃ s', unpack_container_stream s
        = (Frontend.Raised "Failed to read all data from the container", s').
Proof.
  intros Hlive Hc Hh Hl. unfold unpack_container_stream.
  destruct (fill_spec 8 8 [] s Hlive) as [H1 _]; [cbn; lia|].
  destruct H1 as (s1 & E1 & C1 & L1).
  { rewrite Hc, !length_app. cbn. lia. }
  cbn [length app] in E1, C1. rewrite Nat.sub_0_r in E1, C1.
  assert (Ht : take 8 (concat s) = header) by (rewrite Hc, <- Hh; apply take_app_length).
  assert (Hd : drop 8 (concat s) = part)
    by (rewrite Hc, <- Hh; apply drop_app_length).
  rewrite Ht in E1. rewrite Hd in C1.
  rewrite E1.
  destruct (fill_spec (Z.to_nat (header_len header)) (Z.to_nat (header_len header))
              [] s1 L1) as [_ H2]; [cbn; lia|].
  destruct H2 as (s2 & E2); [rewrite C1; cbn; lia|].
  rewrite E2. by exists s2.
Qed.

Lemma unpack_truncated_witness :
  ∃ s', unpack_container_stream
          [[Byte.x01; Byte.x00; Byte.x00; Byte.x00; Byte.x00; Byte.x00; Byte.x00; Byte.x02];
           [Byte.x68]]
        = (Frontend.Raised "Failed to read all data from the container", s').
Proof.
  apply (unpack_truncated
           [[Byte.x01; Byte.x00; Byte.x00; Byte.x00; Byte.x00; Byte.x00; Byte.x00; Byte.x02];
            [Byte.x68]]
           [Byte.x01; Byte.x00; Byte.x00; Byte.x00; Byte.x00; Byte.x00; Byte.x00; Byte.x02]
           [Byte.x68]).
  - repeat constructor; discriminate.
  - reflexivity.
  - reflexivity.
  - vm_compute. reflexivity.
Defined.

End WireProofs.

(** * Further properties of the runner *)

Section RunnerMore.
Import Frontend FrontendSpec RunnerSpec.

(** X15. An execution that ends with a non-zero exit code leaves the
    entry without any record of the standard streams, whatever was read
    or written. *)
Theorem failed_exec_has_no_records (hexd : bytes -> string) (self : ToolImage)
        (selects : list Select) (code : option Z) (cmd_args : list string)
        (read_stdin write_stdout : bool) (entry : CommandLog) :
  container_exec hexd self selects code cmd_args read_stdin write_stdout = Done entry →
  exit_code entry ≠ 0%Z →
  in_files entry = [] ∧ out_files entry = [].
Proof.
  intros E Hnz.
  destruct (container_exec_files _ _ _ _ _ _ _ _ E) as (Hc & _ & Hi & Ho).
  rewrite Hc in Hnz. apply Z.eqb_neq in Hnz. by rewrite Hnz in Hi, Ho.
Qed.

Lemma failed_exec_has_no_records_witness :
  in_files (mkCommandLog ["cincan/env"; "cat"] 2 [] [] [] [] []) = [] ∧
  out_files (mkCommandLog ["cincan/env"; "cat"] 2 [] [] [] [] []) = [].
Proof.
  apply (failed_exec_has_no_records Ex.toy_hexdigest tool busy_run (Some 2%Z) ["cat"]
           true true (mkCommandLog ["cincan/env"; "cat"] 2 [] [] [] [] [])).
  - vm_compute. reflexivity.
  - simpl. discriminate.
Defined.

Lemma kept_deliver buffer t acc data :
  kept buffer (Some t) acc → kept buffer (Some (deliver buffer t data)) (acc ++ data).
Proof.
  intros [Hr Hs]. unfold deliver, kept. destruct buffer; cbn; by rewrite ?Hr, ?Hs.
Qed.

(** One ready stream: where the output goes, what is sent on, and when
    the socket is closed. *)
Lemma handle_kept buffer sel s s' o e :
  handle buffer sel s = Done s' →
  stdin_raw_empty s → kept buffer (stdout_s s) o → kept buffer (Some (stderr_s s)) e →
  stdin_raw_empty s' ∧
  kept buffer (stdout_s s') (o ++ produced_of 1 [sel]) ∧
  kept buffer (Some (stderr_s s')) (e ++ produced_of 2 [sel]) ∧
  sent s' = sent s ++ stdin_of [sel] ∧
  c_socket_open s' = c_socket_open s && negb (is_eof sel).
Proof.
  intros H Hi Ho He.
  destruct sel as [d|t d|]; cbn [handle] in H; [| |done].
  - destruct (stdin_active s); [|done]. cbn [negb] in H.
    cbn [stdin_of produced_of flat_map is_eof negb]. rewrite !app_nil_r, andb_true_r.
    destruct d as [|x d].
    + injection H as <-. cbn. by rewrite app_nil_r.
    + unfold stdin_raw_empty in *. destruct (stdin_s s) as [i|] eqn:Ei; [|done].
      injection H as <-. cbn. done.
  - cbn [stdin_of produced_of flat_map]. rewrite !app_nil_r.
    destruct d as [|x d].
    + injection H as <-. cbn [is_eof negb]. rewrite andb_false_r.
      assert (Hnil : ∀ t', (if (t =? t')%Z then @nil Byte.byte else []) = [])
        by (intros t'; by destruct (t =? t')%Z).
      rewrite !Hnil, !app_nil_r. done.
    + cbn [is_eof negb]. rewrite andb_true_r.
      destruct (t =? 1)%Z eqn:E1.
      { assert (E2 : (t =? 2)%Z = false) by lia. rewrite E2, app_nil_r.
        destruct (stdout_s s) as [os|] eqn:Eo.
        - injection H as <-. cbn [stdin_s stdout_s stderr_s sent c_socket_open].
          split; [done|]. split; [by apply kept_deliver|]. done.
        - injection H as <-. rewrite Eo. done. }
      rewrite app_nil_r. destruct (t =? 2)%Z eqn:E2.
      * injection H as <-. cbn [stdin_s stdout_s stderr_s sent c_socket_open].
        split; [done|]. split; [done|]. split; [by apply kept_deliver|]. done.
      * injection H as <-. by rewrite app_nil_r.
Qed.

Lemma handle_all_kept buffer sels :
  ∀ s s' o e,
    handle_all buffer sels s = Done s' →
    stdin_raw_empty s → kept buffer (stdout_s s) o → kept buffer (Some (stderr_s s)) e →
    stdin_raw_empty s' ∧
    kept buffer (stdout_s s') (o ++ produced_of 1 sels) ∧
    kept buffer (Some (stderr_s s')) (e ++ produced_of 2 sels) ∧
    sent s' = sent s ++ stdin_of sels ∧
    c_socket_open s' = c_socket_open s && negb (existsb is_eof sels).
Proof.
  induction sels as [|sel sels IH]; intros s s' o e H Hi Ho He.
  - injection H as <-. cbn. rewrite !app_nil_r, andb_true_r. done.
  - cbn [handle_all] in H. destruct (handle buffer sel s) as [s1| |] eqn:E1; [|done|done].
    destruct (handle_kept _ _ _ _ _ _ E1 Hi Ho He) as (Hi1 & Ho1 & He1 & Hs1 & Hc1).
    destruct (IH _ _ _ _ H Hi1 Ho1 He1) as (Hi2 & Ho2 & He2 & Hs2 & Hc2).
    unfold stdin_of, produced_of in *. cbn [flat_map] in *.
    rewrite !app_nil_r in *. rewrite <- !app_assoc in Ho2, He2.
    split; [done|]. split; [done|]. split; [done|]. split.
    + by rewrite Hs2, Hs1, <- app_assoc.
    + rewrite Hc2, Hc1. cbn [existsb]. by rewrite negb_orb, andb_assoc.
Qed.

Lemma io_loop_kept buffer selects :
  ∀ s s' o e,
    io_loop buffer selects s = Done s' →
    c_socket_open s = true →
    stdin_raw_empty s → kept buffer (stdout_s s) o → kept buffer (Some (stderr_s s)) e →
    stdin_raw_empty s' ∧
    kept buffer (stdout_s s') (o ++ produced_of 1 (handled selects)) ∧
    kept buffer (Some (stderr_s s')) (e ++ produced_of 2 (handled selects)) ∧
    sent s' = sent s ++ stdin_of (handled selects) ∧
    existsb is_eof (handled selects) = true.
Proof.
  induction selects as [|sel selects IH]; intros s s' o e H Hopen Hi Ho He.
  - cbn [io_loop] in H. by rewrite Hopen in H.
  - cbn [io_loop] in H. rewrite Hopen in H. cbn [negb] in H.
    destruct sel as [sels|].
    + destruct (handle_all buffer sels s) as [s1| |] eqn:E1; [|done|done].
      destruct (handle_all_kept _ _ _ _ _ _ E1 Hi Ho He) as (Hi1 & Ho1 & He1 & Hs1 & Hc1).
      rewrite Hopen in Hc1. cbn [andb handled] in *.
      destruct (existsb is_eof sels) eqn:Eof.
      * rewrite io_loop_closed in H by done. by injection H as <-.
      * destruct (IH _ _ _ _ H Hc1 Hi1 Ho1 He1) as (Hi2 & Ho2 & He2 & Hs2 & Hc2).
        unfold stdin_of, produced_of in *. rewrite !flat_map_app, existsb_app.
        rewrite <- !app_assoc in Ho2, He2.
        split; [done|]. split; [done|]. split; [done|]. split.
        -- by rewrite Hs2, Hs1, <- app_assoc.
        -- by rewrite Hc2, orb_true_r.
    + destruct (stdin_active s); [|done]. cbn [handled].
      by apply (IH _ _ _ _ H).
Qed.

Lemma container_exec_loop hexd self selects code cmd_args read_stdin write_stdout entry :
  container_exec hexd self selects code cmd_args read_stdin write_stdout = Done entry →
  ∃ s, io_loop (buffer_output self) selects (initial_streams read_stdin write_stdout)
       = Done s ∧
       entry = collect hexd self code (new_CommandLog (name self :: user_cmd self cmd_args)) s.
Proof.
  unfold container_exec. fold (initial_streams read_stdin write_stdout).
  destruct (io_loop _ _ _) as [s| |]; [|done|done]. intros [= <-]. by exists s.
Qed.

Lemma exec_buffered_streams hexd self selects code cmd_args read_stdin write_stdout entry :
  container_exec hexd self selects code cmd_args read_stdin write_stdout = Done entry →
  buffer_output self = true →
  stdin entry = [] ∧
  stdout entry = (if write_stdout then produced 1 selects else []) ∧
  stderr entry = produced 2 selects.
Proof.
  intros E Hb. destruct (container_exec_loop _ _ _ _ _ _ _ _ E) as (s & El & ->).
  destruct (io_loop_kept _ _ _ _ [] [] El eq_refl) as (Hi & Ho & He & _ & _).
  { unfold stdin_raw_empty, initial_streams. by destruct read_stdin. }
  { unfold kept, initial_streams. destruct write_stdout; [|done].
    by destruct (buffer_output self). }
  { unfold kept. by destruct (buffer_output self). }
  destruct (io_loop_present _ _ _ _ El) as [Pi Po]. cbn [stdin_s stdout_s initial_streams] in Pi, Po.
  cbn [app] in Ho, He.
  change (produced_of 1 (handled selects)) with (produced 1 selects) in Ho.
  change (produced_of 2 (handled selects)) with (produced 2 selects) in He.
  unfold collect. rewrite Hb in *. cbn [stdin stdout stderr].
  split; [|split].
  - unfold stdin_raw_empty in Hi. by destruct (stdin_s s).
  - unfold kept in Ho. destruct (stdout_s s), write_stdout; cbn in Po; try done.
    by destruct Ho.
  - by destruct He as [He _].
Qed.

(** X16. The raw data of the returned entry.  The argument vector is the
    tool name followed by the arguments given, or by the [Cmd] of the
    image when none are given.  When the output is buffered, the streams
    are assigned: [stdin] is empty, also when standard input was read,
    since nothing is ever put in [stdin_s.raw]; [stderr] holds what the
    container wrote on its standard error, and [stdout] what it wrote on
    its standard output if standard output is passed on, nothing
    otherwise. *)
Theorem exec_raw_data (hexd : bytes -> string) (self : ToolImage)
        (selects : list Select) (code : option Z) (cmd_args : list string)
        (read_stdin write_stdout : bool) (entry : CommandLog) :
  container_exec hexd self selects code cmd_args read_stdin write_stdout = Done entry →
  command entry = name self :: match cmd_args with
                               | [] => match image_cmd self with
                                       | Some cmd => cmd
                                       | None => []
                                       end
                               | _ :: _ => cmd_args
                               end ∧
  (buffer_output self = true →
   stdin entry = [] ∧
   stdout entry = (if write_stdout then produced 1 selects else []) ∧
   stderr entry = produced 2 selects).
Proof.
  intros E. split.
  - destruct (container_exec_loop _ _ _ _ _ _ _ _ E) as (s & _ & ->).
    unfold collect. cbn [command new_CommandLog].
    f_equal. unfold user_cmd, or_empty. destruct cmd_args; [|done].
    by destruct (image_cmd self) as [[|]|].
  - intros Hb. exact (exec_buffered_streams _ _ _ _ _ _ _ _ E Hb).
Qed.

Lemma exec_raw_data_witness :
  command (mkCommandLog ["cincan/env"; "sh"] 2 [] [Byte.x6f] [Byte.x65] [] [])
  = name RunEx.buffered_tool :: match @nil string with
                                | [] => match image_cmd RunEx.buffered_tool with
                                        | Some cmd => cmd
                                        | None => []
                                        end
                                | _ :: _ => []
                                end ∧
  stdin (mkCommandLog ["cincan/env"; "sh"] 2 [] [Byte.x6f] [Byte.x65] [] []) = [] ∧
  stdout (mkCommandLog ["cincan/env"; "sh"] 2 [] [Byte.x6f] [Byte.x65] [] [])
  = (if true then produced 1 busy_run else []) ∧
  stderr (mkCommandLog ["cincan/env"; "sh"] 2 [] [Byte.x6f] [Byte.x65] [] [])
  = produced 2 busy_run.
Proof.
  destruct (exec_raw_data Ex.toy_hexdigest RunEx.buffered_tool busy_run (Some 2%Z) []
              true true (mkCommandLog ["cincan/env"; "sh"] 2 [] [Byte.x6f] [Byte.x65] [] []))
    as [Hc Hs].
  - vm_compute. reflexivity.
  - split; [exact Hc|]. apply Hs. reflexivity.
Defined.

(** X17. [__container_exec] returns only after the container socket
    reported the end of its stream, and everything read from standard
    input until then has been sent to the container, in order. *)
Theorem exec_until_end_of_stream (buffer : bool) (selects : list Select)
        (read_stdin write_stdout : bool) (s : Streams) :
  io_loop buffer selects (initial_streams read_stdin write_stdout) = Done s →
  existsb is_eof (handled selects) = true ∧
  c_socket_open s = false ∧
  sent s = stdin_bytes selects.
Proof.
  intros El.
  destruct (io_loop_kept _ _ _ _ [] [] El eq_refl) as (_ & _ & _ & Hs & He).
  { unfold stdin_raw_empty, initial_streams. by destruct read_stdin. }
  { unfold kept, initial_streams. destruct write_stdout; [|done]. by destruct buffer. }
  { unfold kept. by destruct buffer. }
  split; [done|]. split; [|done].
  clear -El. revert El. generalize (initial_streams read_stdin write_stdout).
  induction selects as [|sel selects IH]; intros s0; cbn [io_loop].
  - destruct (c_socket_open s0) eqn:Eo; cbn [negb]; [done|]. by intros [= <-].
  - destruct (c_socket_open s0) eqn:Eo; cbn [negb]; [|by intros [= <-]].
    destruct sel as [sels|].
    + destruct (handle_all buffer sels s0) as [s1| |]; [|done|done]. apply IH.
    + destruct (stdin_active s0); [|done]. apply IH.
Qed.

Lemma exec_until_end_of_stream_witness :
  existsb is_eof (handled busy_run) = true ∧
  c_socket_open
    (mkStreams (Some (mkToolStream 2 [Byte.x69; Byte.x6e] [] []))
               (Some (mkToolStream 1 [Byte.x6f] [] [Byte.x6f]))
               (mkToolStream 1 [Byte.x65] [] [Byte.x65])
               false false [Byte.x69; Byte.x6e]) = false ∧
  sent
    (mkStreams (Some (mkToolStream 2 [Byte.x69; Byte.x6e] [] []))
               (Some (mkToolStream 1 [Byte.x6f] [] [Byte.x6f]))
               (mkToolStream 1 [Byte.x65] [] [Byte.x65])
               false false [Byte.x69; Byte.x6e]) = stdin_bytes busy_run.
Proof.
  apply (exec_until_end_of_stream false busy_run true true).
  vm_compute. reflexivity.
Defined.

Lemma io_loop_past_end buffer (pre : list Select) :
  ∀ sels post s,
    existsb is_eof sels = true →
    io_loop buffer (pre ++ Selected sels :: post) s
    = io_loop buffer (pre ++ [Selected sels]) s.
Proof.
  induction pre as [|x pre IH]; intros sels post s Heof; cbn [app io_loop].
  - destruct (c_socket_open s) eqn:Eo; cbn [negb]; [|done].
    destruct (handle_all buffer sels s) as [s1| |] eqn:E1; [|done|done].
    assert (Hc : c_socket_open s1 = false).
    { clear -E1 Heof. revert s s1 E1.
      induction sels as [|sel sels IHs]; intros s s1 E1; [done|].
      cbn [handle_all] in E1. destruct (handle buffer sel s) as [s0| |] eqn:E0; [|done|done].
      cbn [existsb] in Heof. destruct (is_eof sel) eqn:Es.
      - assert (H0 : c_socket_open s0 = false).
        { destruct sel as [d|t d|]; cbn in Es; try done. destruct d; [|done].
          cbn in E0. by injection E0 as <-. }
        clear -E1 H0. revert s0 E1 H0.
        induction sels as [|sel' sels IH']; intros s0 E1 H0; [by injection E1 as <-|].
        cbn [handle_all] in E1.
        destruct (handle buffer sel' s0) as [s2| |] eqn:E2; [|done|done].
        apply (IH' s2 E1).
        destruct sel' as [d|t d|]; cbn [handle] in E2; [| |done].
        + destruct (stdin_active s0); [|done]. cbn [negb] in E2.
          destruct d; [by injection E2 as <-|].
          destruct (stdin_s s0); [|done]. by injection E2 as <-.
        + destruct d; [by injection E2 as <-|].
          destruct (t =? 1)%Z; [destruct (stdout_s s0); by injection E2 as <-|].
          destruct (t =? 2)%Z; by injection E2 as <-.
      - by apply (IHs Heof s0). }
    by rewrite (io_loop_closed buffer post _ Hc), Hc.
  - destruct (c_socket_open s); cbn [negb]; [|done].
    destruct x as [sels'|].
    + destruct (handle_all buffer sels' s); [|done|done]. by apply IH.
    + destruct (stdin_active s); [|done]. by apply IH.
Qed.

(** X18. Nothing is looked at after the end of the container stream:
    what [select] would return afterwards does not change the result.  A
    frame without data, of any type, counts as the end of the stream. *)
Theorem exec_ignores_after_end (hexd : bytes -> string) (self : ToolImage)
        (pre post : list Select) (sels : list Ready) (code : option Z)
        (cmd_args : list string) (read_stdin write_stdout : bool) :
  existsb is_eof sels = true →
  container_exec hexd self (pre ++ Selected sels :: post) code cmd_args
                 read_stdin write_stdout
  = container_exec hexd self (pre ++ [Selected sels]) code cmd_args
                   read_stdin write_stdout.
Proof.
  intros Heof. unfold container_exec. by rewrite io_loop_past_end.
Qed.

Lemma exec_ignores_after_end_witness :
  container_exec Ex.toy_hexdigest tool
    ([Selected [SocketReady 1 [Byte.x78]]] ++ Selected [SocketReady 2 []]
       :: [Selected [SocketReady 1 [Byte.x79]]])
    (Some 0%Z) ["cat"] true true
  = container_exec Ex.toy_hexdigest tool
      ([Selected [SocketReady 1 [Byte.x78]]] ++ [Selected [SocketReady 2 []]])
      (Some 0%Z) ["cat"] true true.
Proof.
  apply (exec_ignores_after_end Ex.toy_hexdigest tool
           [Selected [SocketReady 1 [Byte.x78]]] [Selected [SocketReady 1 [Byte.x79]]]
           [SocketReady 2 []] (Some 0%Z) ["cat"] true true).
  reflexivity.
Defined.

End RunnerMore.

(** ** An empty frame *)

Lemma fill_header (s : Wire.Socket) (header tail : bytes) :
  Wire.live s → concat s = header ++ tail → length header = 8%nat →
  ∃ s1, Wire.fill 8 8 [] s = Wire.Filled header s1 ∧ concat s1 = tail ∧ Wire.live s1.
Proof.
  intros Hlive Hc Hh.
  destruct (fill_spec 8 8 [] s Hlive) as [H1 _]; [cbn; lia|].
  destruct H1 as (s1 & E1 & C1 & L1).
  { rewrite Hc, length_app. cbn. lia. }
  cbn [length app] in E1, C1. rewrite Nat.sub_0_r in E1, C1.
  assert (Ht : take 8 (concat s) = header) by (rewrite Hc, <- Hh; apply take_app_length).
  assert (Hd : drop 8 (concat s) = tail) by (rewrite Hc, <- Hh; apply drop_app_length).
  rewrite Ht in E1. rewrite Hd in C1. by exists s1.
Qed.

(** X19. A frame whose header announces no data, whatever its type, is
    returned with empty data, and the loop of [__container_exec] takes
    that for the end of the stream: it closes the socket and changes
    nothing else. *)
Theorem empty_frame_ends_loop (s : Wire.Socket) (header rest : bytes)
        (buffer : bool) (st : Frontend.Streams) :
  Wire.live s →
  concat s = header ++ rest →
  length header = 8%nat →
  Wire.header_len header = 0%Z →
  ∃ s', Wire.unpack_container_stream s
        = (Frontend.Done (Wire.header_type header, []), s') ∧
        concat s' = rest ∧
        Frontend.handle buffer
          (Wire.ready_of (fst (Wire.unpack_container_stream s))) st
        = Frontend.Done (RunnerSpec.closed st).
Proof.
  intros Hlive Hc Hh Hl.
  destruct (fill_header s header rest Hlive Hc Hh) as (s' & E & Cr & _).
  assert (Eu : Wire.unpack_container_stream s
               = (Frontend.Done (Wire.header_type header, []), s')).
  { unfold Wire.unpack_container_stream. rewrite E, Hl. reflexivity. }
  exists s'. split; [done|]. split; [done|]. by rewrite Eu.
Qed.

Lemma empty_frame_ends_loop_witness :
  ∃ s', Wire.unpack_container_stream
          [[Byte.x02; Byte.x00; Byte.x00; Byte.x00]; [Byte.x00; Byte.x00; Byte.x00; Byte.x00];
           [Byte.x01]]
        = (Frontend.Done (Wire.header_type
                            [Byte.x02; Byte.x00; Byte.x00; Byte.x00;
                             Byte.x00; Byte.x00; Byte.x00; Byte.x00], []), s') ∧
        concat s' = [Byte.x01] ∧
        Frontend.handle true
          (Wire.ready_of
             (fst (Wire.unpack_container_stream
                     [[Byte.x02; Byte.x00; Byte.x00; Byte.x00];
                      [Byte.x00; Byte.x00; Byte.x00; Byte.x00]; [Byte.x01]])))
          (RunnerSpec.initial_streams true true)
        = Frontend.Done (RunnerSpec.closed (RunnerSpec.initial_streams true true)).
Proof.
  apply (empty_frame_ends_loop
           [[Byte.x02; Byte.x00; Byte.x00; Byte.x00]; [Byte.x00; Byte.x00; Byte.x00; Byte.x00];
            [Byte.x01]]
           [Byte.x02; Byte.x00; Byte.x00; Byte.x00; Byte.x00; Byte.x00; Byte.x00; Byte.x00]
           [Byte.x01] true (RunnerSpec.initial_streams true true)).
  - repeat constructor; discriminate.
  - reflexivity.
  - reflexivity.
  - reflexivity.
Defined.

(** ** The queries of [main] *)

Lemma no_match_leaf w self out file ac digest st :
  (∀ c, In c (log self) →
        digest_here (effective_digest w digest file) (match_files out c) = false) →
  ∃ st', fan w self (budget self) out file ac digest st
         = Some (leaf w self out file digest, st').
Proof.
  intros Hno.
  destruct (fan_total w self out file ac digest st) as (t & st' & E).
  exists st'. rewrite E. f_equal. f_equal.
  pose proof (fan_root w self _ _ _ _ _ _ _ _ E) as (Hf & Hd & Ho).
  pose proof (fan_commands w self _ _ _ _ _ _ _ E) as Hc.
  assert (Hnil : fd_next t = []).
  { apply (map_eq_nil cd_command). rewrite Hc.
    destruct (visited w file ac digest st); [done|].
    destruct (List.filter _ _) as [|c cs] eqn:Ef; [done|exfalso].
    assert (Hin : In c (List.filter (matches out (effective_digest w digest file))
                                    (list_entries (log self) true)))
      by (rewrite Ef; by left).
    apply filter_In in Hin as [Hin Hm]. apply list_entries_In in Hin.
    unfold matches in Hm. by rewrite (Hno c Hin) in Hm. }
  destruct t as [f' d' o' n']. simpl in Hf, Hd, Ho, Hnil. unfold leaf. by subst.
Qed.

(** X20. [cincan fanin FILE] (or [fanout]) for a file without history:
    when no entry of the log has an output (input) record with the hash
    of the resolved file, exactly one line is printed, the path as
    [__work_path] gives it and the first 16 characters of the hash, or
    the path and [/] for what is not a regular file. *)
Theorem main_query_no_history (quote_args : list string -> list string)
        (w : World) (log0 : CommandLogIndex) (sub_command file : string)
        (st : State) :
  let out := String.eqb sub_command "fanout" in
  let inspector := mkCommandInspector log0 (resolve w ".") in
  let anchor := resolve w file in
  (∀ c, In c log0 → digest_here (hash_of w anchor) (match_files out c) = false) →
  ∃ st', main_query quote_args w log0 sub_command file st
         = Some (work_path w inspector anchor
                 +:+ (if str_truthy (hash_of w anchor)
                      then " " +:+ substring 0 16 (hash_of w anchor)
                      else "/")
                 +:+ nl, st').
Proof.
  intros out inspector anchor Hno.
  destruct (no_match_leaf w inspector out anchor None None st Hno) as (st' & E).
  exists st'. unfold main_query. fold inspector anchor out.
  assert (Hq : (if out then fanout w inspector anchor None None
                else fanin w inspector anchor None None) st
               = Some (leaf w inspector out anchor None, st')).
  { unfold fanout, fanin. by destruct out. }
  unfold bind. rewrite Hq. unfold ret, leaf. cbn [FileDependency_str map attach].
  unfold file_string, effective_digest. by rewrite str_app_nil_r, str_app_assoc.
Qed.

Lemma main_query_no_history_witness :
  ∃ st', main_query (fun l => l) Ex.world (log Ex.store_cat) "fanin" "/w/b" Ex.st0
         = Some ("/w/b"
                 +:+ (if str_truthy (hash_of Ex.world "/w/b")
                      then " " +:+ substring 0 16 (hash_of Ex.world "/w/b")
                      else "/")
                 +:+ nl, st').
Proof.
  apply (main_query_no_history (fun l => l) Ex.world (log Ex.store_cat) "fanin" "/w/b" Ex.st0).
  intros c [<-|[]]. reflexivity.
Defined.

(** ** [__run]: the files of a run *)

Section RunProofs.
Import Frontend Run.

Lemma run_inv w hexd self input_tar output_tar cwd upload_keys uploaded downloaded
      selects code cmd_args r :
  run w hexd self input_tar output_tar cwd upload_keys uploaded downloaded
      selects code cmd_args = Done r →
  ∃ log0 rels,
    container_exec hexd self selects code cmd_args
                   (negb (is_dash input_tar)) (negb (is_dash output_tar)) = Done log0 ∧
    stdout (run_log r) = stdout log0 ∧ stderr (run_log r) = stderr log0 ∧
    exit_code (run_log r) = exit_code log0 ∧
    in_files (run_log r) = in_files log0 ++ uploaded ∧
    out_files (run_log r)
    = out_files log0 ++ (if (exit_code log0 =? 0)%Z then downloaded else []) ∧
    relative_paths w cwd (List.filter not_dev (out_files (run_log r))) = Some rels ∧
    upload_files r = sorted upload_keys ∧
    download_files r = sorted rels.
Proof.
  unfold run.
  destruct (container_exec _ _ _ _ _ _ _) as [log0| |] eqn:E; [|done|done].
  cbn [out_files].
  destruct (relative_paths _ _ _) as [rels|] eqn:Er; [|done].
  intros [= <-]. exists log0, rels. cbn. done.
Qed.

Lemma stream_records_dev hexd self selects code cmd_args read_stdin write_stdout log0 :
  container_exec hexd self selects code cmd_args read_stdin write_stdout = Done log0 →
  List.filter not_dev (out_files log0) = [].
Proof.
  intros E. destruct (container_exec_files _ _ _ _ _ _ _ _ E) as (_ & _ & _ & Ho).
  rewrite Ho. destruct (_ =? 0)%Z; [|done].
  rewrite List.filter_app.
  destruct write_stdout, (produced 1 selects), (produced 2 selects); done.
Qed.

(** X21. A run whose command ends with a non-zero exit code records no
    output at all: the entry has no output records, nothing is listed as
    downloaded, and the input records are those of the upload. *)
Theorem failed_run_has_no_output w hexd self input_tar output_tar cwd upload_keys
        uploaded downloaded selects code cmd_args r :
  run w hexd self input_tar output_tar cwd upload_keys uploaded downloaded
      selects code cmd_args = Done r →
  exit_code (run_log r) ≠ 0%Z →
  out_files (run_log r) = [] ∧ download_files r = [] ∧ in_files (run_log r) = uploaded.
Proof.
  intros E Hnz.
  destruct (run_inv _ _ _ _ _ _ _ _ _ _ _ _ _ E)
    as (log0 & rels & Ec & _ & _ & Hx & Hi & Ho & Hr & _ & Hd).
  rewrite Hx in Hnz.
  destruct (container_exec_files _ _ _ _ _ _ _ _ Ec) as (Hc0 & _ & Hi0 & Ho0).
  rewrite Hc0 in Hnz. apply Z.eqb_neq in Hnz. rewrite Hnz in Hi0, Ho0.
  rewrite Hc0, Hnz, Ho0 in Ho. rewrite Hi0 in Hi. cbn in Ho, Hi.
  rewrite Ho in Hr. cbn in Hr. injection Hr as <-.
  split; [done|]. split; [by rewrite Hd|done].
Qed.

Lemma failed_run_has_no_output_witness :
  out_files (mkCommandLog ["cincan/env"; "cat"] 2 [] [] [] [mkFileLog "/w/a.txt" "d1"] [])
  = [] ∧
  @nil string = [] ∧
  in_files (mkCommandLog ["cincan/env"; "cat"] 2 [] [] [] [mkFileLog "/w/a.txt" "d1"] [])
  = [mkFileLog "/w/a.txt" "d1"].
Proof.
  apply (failed_run_has_no_output Ex.world Ex.toy_hexdigest FrontendSpec.tool None None "/w"
           ["/w/a.txt"] [mkFileLog "/w/a.txt" "d1"] [mkFileLog "/w/out" "d9"]
           FrontendSpec.busy_run (Some 2%Z) ["cat"]
           (mkRunResult
              (mkCommandLog ["cincan/env"; "cat"] 2 [] [] [] [mkFileLog "/w/a.txt" "d1"] [])
              ["/w/a.txt"] [])).
  - vm_compute. reflexivity.
  - simpl. discriminate.
Defined.

(** X22. After a successful run, [download_files] lists, sorted, the
    paths relative to the current directory of exactly the downloaded
    files that are not below [/dev/]: the records of the standard streams
    are in the entry but never in that list.  [upload_files] is the sorted
    list of the files to upload. *)
Theorem run_download_files w hexd self input_tar output_tar cwd upload_keys
        uploaded downloaded selects code cmd_args r :
  run w hexd self input_tar output_tar cwd upload_keys uploaded downloaded
      selects code cmd_args = Done r →
  exit_code (run_log r) = 0%Z →
  ∃ rels,
    relative_paths w cwd (List.filter not_dev downloaded) = Some rels ∧
    download_files r ≡ₚ rels ∧ Sorted String.le (download_files r) ∧
    upload_files r ≡ₚ upload_keys ∧ Sorted String.le (upload_files r).
Proof.
  intros E Hz.
  destruct (run_inv _ _ _ _ _ _ _ _ _ _ _ _ _ E)
    as (log0 & rels & Ec & _ & _ & Hx & Hi & Ho & Hr & Hu & Hd).
  rewrite Hx in Hz. rewrite Hz in Ho. cbn [Z.eqb] in Ho.
  rewrite Ho, List.filter_app, (stream_records_dev _ _ _ _ _ _ _ _ Ec) in Hr.
  cbn [app] in Hr. exists rels. split; [done|]. rewrite Hd, Hu. unfold sorted.
  split; [apply merge_sort_Permutation|]. split; [apply (Sorted_merge_sort String.le)|].
  split; [apply merge_sort_Permutation|apply (Sorted_merge_sort String.le)].
Qed.

Lemma run_download_files_witness :
  ∃ rels,
    relative_paths RunEx.world "/w"
      (List.filter not_dev [mkFileLog "/w/z.out" "d9"; mkFileLog "/dev/null" "d0";
                            mkFileLog "/w/m.out" "d8"]) = Some rels ∧
    download_files
      (mkRunResult
         (mkCommandLog ["cincan/env"; "cat"] 0 [] [] []
            [mkFileLog "/w/b.txt" "d1"; mkFileLog "/w/a.txt" "d2"]
            [mkFileLog "/dev/stdout" "hx"; mkFileLog "/w/z.out" "d9";
             mkFileLog "/dev/null" "d0"; mkFileLog "/w/m.out" "d8"])
         ["/w/a.txt"; "/w/b.txt"] ["m.out"; "z.out"]) ≡ₚ rels ∧
    Sorted String.le
      (download_files
         (mkRunResult
            (mkCommandLog ["cincan/env"; "cat"] 0 [] [] []
               [mkFileLog "/w/b.txt" "d1"; mkFileLog "/w/a.txt" "d2"]
               [mkFileLog "/dev/stdout" "hx"; mkFileLog "/w/z.out" "d9";
                mkFileLog "/dev/null" "d0"; mkFileLog "/w/m.out" "d8"])
            ["/w/a.txt"; "/w/b.txt"] ["m.out"; "z.out"])) ∧
    upload_files
      (mkRunResult
         (mkCommandLog ["cincan/env"; "cat"] 0 [] [] []
            [mkFileLog "/w/b.txt" "d1"; mkFileLog "/w/a.txt" "d2"]
            [mkFileLog "/dev/stdout" "hx"; mkFileLog "/w/z.out" "d9";
             mkFileLog "/dev/null" "d0"; mkFileLog "/w/m.out" "d8"])
         ["/w/a.txt"; "/w/b.txt"] ["m.out"; "z.out"]) ≡ₚ ["/w/b.txt"; "/w/a.txt"] ∧
    Sorted String.le
      (upload_files
         (mkRunResult
            (mkCommandLog ["cincan/env"; "cat"] 0 [] [] []
               [mkFileLog "/w/b.txt" "d1"; mkFileLog "/w/a.txt" "d2"]
               [mkFileLog "/dev/stdout" "hx"; mkFileLog "/w/z.out" "d9";
                mkFileLog "/dev/null" "d0"; mkFileLog "/w/m.out" "d8"])
            ["/w/a.txt"; "/w/b.txt"] ["m.out"; "z.out"])).
Proof.
  apply (run_download_files RunEx.world Ex.toy_hexdigest FrontendSpec.tool None None "/w"
           ["/w/b.txt"; "/w/a.txt"]
           [mkFileLog "/w/b.txt" "d1"; mkFileLog "/w/a.txt" "d2"]
           [mkFileLog "/w/z.out" "d9"; mkFileLog "/dev/null" "d0"; mkFileLog "/w/m.out" "d8"]
           FrontendSpec.one_byte_run (Some 0%Z) ["cat"]).
  - vm_compute. reflexivity.
  - reflexivity.
Defined.

(** X24. [run_get_string] returns all of the standard output of the
    command followed by all of its standard error, whatever the order in
    which the container delivered the frames; the standard output part is
    empty when the output archive goes to standard output ([output_tar]
    is [-]). *)
Theorem run_get_string_output (decode_utf8 : bytes -> option string)
        w hexd self input_tar output_tar cwd upload_keys
        uploaded downloaded selects code cmd_args (s : string) :
  run_get_string decode_utf8 w hexd self input_tar output_tar cwd upload_keys
                 uploaded downloaded selects code cmd_args = Done s →
  ∃ out err,
    decode_utf8 (if is_dash output_tar then [] else produced 1 selects) = Some out ∧
    decode_utf8 (produced 2 selects) = Some err ∧
    s = out +:+ err.
Proof.
  unfold run_get_string.
  destruct (run _ _ _ _ _ _ _ _ _ _ _ _) as [r| |] eqn:E; [|done|done].
  destruct (run_inv _ _ _ _ _ _ _ _ _ _ _ _ _ E)
    as (log0 & rels & Ec & Ho & He & _).
  destruct (exec_buffered_streams _ _ _ _ _ _ _ _ Ec eq_refl) as (_ & Ho' & He').
  rewrite Ho, He, Ho', He'.
  destruct (is_dash output_tar); cbn [negb].
  - destruct (decode_utf8 []) as [out|]; [|done].
    destruct (decode_utf8 (produced 2 selects)) as [err|]; [|done].
    intros [= <-]. by exists out, err.
  - destruct (decode_utf8 (produced 1 selects)) as [out|]; [|done].
    destruct (decode_utf8 (produced 2 selects)) as [err|]; [|done].
    intros [= <-]. by exists out, err.
Qed.

Lemma run_get_string_output_witness :
  ∃ out err,
    Some (string_of_list_byte
            (if is_dash None then [] else produced 1 FrontendSpec.busy_run)) = Some out ∧
    Some (string_of_list_byte (produced 2 FrontendSpec.busy_run)) = Some err ∧
    "oe" = out +:+ err.
Proof.
  apply (run_get_string_output (fun b => Some (string_of_list_byte b))
           RunEx.world Ex.toy_hexdigest FrontendSpec.tool None None "/w" [] [] []
           FrontendSpec.busy_run (Some 0%Z) ["cat"] "oe").
  vm_compute. reflexivity.
Defined.

End RunProofs.
